(** * xmux: typed handlers, route groups and the group registry

    A shallow embedding of the core package [xmux] (handler contract,
    [Register], the options decorator, [DefineGroup], [Groups]) and of the
    [mergeOptions] helper of the gin adapter, followed by the properties the
    specification states about them. The examples that use the core are
    embedded as well: the rest of the gin adapter (paths, request binding,
    responses), the echo adapter, and the in-memory user repository with the
    service methods that read and delete.

    Modelling conventions.
    - Go code with side effects is a state transformer on a world [W]
      (router tables, services, counters): [M A := W -> A * W].
    - [error] is [option Err]; [None] is Go's [nil].
    - A generic type parameter is a code [t : ty]; its values live in
      [denote t] and [zero t] is the value of [var x T].
    - [any] is a value packed with the code of its dynamic type.
    - A pointer to a fresh local passed to a callback ([bind(&params)]) is
      value-result passing: the callback receives the content of the slot
      and hands back the content it leaves there.
    - Slices are lists, [map[string]string] is [gmap string string]
      (a nil map is the empty map). A slice argument is the sequence of its
      elements at the time of the call; backing arrays shared through
      [append] are not modelled.
    - Function values are non-nil.
    - The registry is an object of its own, outside [W]: a group's [Bind]
      cannot reach the registry it is stored in (in Go such a call would
      block on the registry's lock, which [Groups.Bind] holds).
    - Goroutines that call [Groups.Register] at the same time are
      interleavings of the statements of its body, chosen by a schedule;
      see [Register_step] and [run_schedule]. *)

From stdpp Require Import base option list strings gmap fin_maps.

Module xmux.

(** The types of the program that instantiate generic parameters, each with
    its zero value, and the ambient world the callbacks act on. *)
Class Env := {
  W : Type;
  Err : Type;
  Ctx : Type;
  ty : Type;
  denote : ty → Type;
  zero : ∀ t : ty, denote t;
}.

Section Core.
Context {env : Env}.

Definition M (A : Type) : Type := W → A * W.

#[export] Instance M_ret : MRet M := λ A (a : A) (w : W), (a, w).

#[export] Instance M_bind : MBind M :=
  λ A B (k : A → M B) (m : M A) (w : W), let '(a, w1) := m w in k a w1.

Definition error : Type := option Err.

Definition any : Type := { t : ty & denote t }.

Definition box {t : ty} (v : denote t) : any := existT t v.

(** [type Bind = func(ptr any) (err error)]: [ptr] points to a slot of some
    type [t]; the call may overwrite the slot and reports an error. *)
Definition Bind : Type := ∀ t : ty, denote t → M (denote t * error).

(** [type Handler interface { Invoke; Params; Response }] *)
Record Handler := {
  Handler_Invoke : Ctx → Bind → M (any * error);
  Handler_Params : M any;
  Handler_Response : M any;
}.

(** [type Router interface { Register(method, path, api, options...) }] *)
Record Router := {
  Router_Register :
    string → string → Handler → list (gmap string string) → M unit;
}.

(** [type Binder interface { Bind(router, bind) (err error) }] *)
Record Binder := {
  Binder_Bind : Router → Bind → M error;
}.

(** [type HandlerFunc[Params, Response] func(ctx, bind) (Response, error)] *)
Definition HandlerFunc (Params Response : ty) : Type :=
  Ctx → Bind → M (denote Response * error).

(** [func (h HandlerFunc[Params, Response]) Invoke(ctx, bind) (any, error)] *)
Definition HandlerFunc_Invoke {Params Response : ty}
    (h : HandlerFunc Params Response) (ctx : Ctx) (bind : Bind)
    : M (any * error) :=
  '(resp, err) ← h ctx bind;
  mret (box resp, err).

(** [func (h HandlerFunc[Params, Response]) Params() any] *)
Definition HandlerFunc_Params {Params Response : ty}
    (h : HandlerFunc Params Response) : M any :=
  let zero_ : denote Params := zero Params in
  mret (box zero_).

(** [func (h HandlerFunc[Params, Response]) Response() any] *)
Definition HandlerFunc_Response {Params Response : ty}
    (h : HandlerFunc Params Response) : M any :=
  let zero_ : denote Response := zero Response in
  mret (box zero_).

(** A [HandlerFunc] used where a [Handler] is expected. *)
Definition HandlerFunc_Handler {Params Response : ty}
    (h : HandlerFunc Params Response) : Handler :=
  {| Handler_Invoke := HandlerFunc_Invoke h;
     Handler_Params := HandlerFunc_Params h;
     Handler_Response := HandlerFunc_Response h |}.

(** The function literal that [Register] converts to a [HandlerFunc]:
    [resp] and [err] are named results, so the bare [return] after a failed
    [bind] yields the zero [resp] and the error of [bind]. *)
Definition Register_func {Params Response : ty}
    (fn : Ctx → denote Params → M (denote Response * error))
    : HandlerFunc Params Response :=
  λ (ctx : Ctx) (bind : Bind),
    let resp : denote Response := zero Response in
    let params : denote Params := zero Params in
    '(params, err) ← bind Params params;
    match err with
    | Some _ => mret (resp, err)
    | None => fn ctx params
    end.

(** [func Register[Params, Response](router, method, path, fn, options...)] *)
Definition Register {Params Response : ty}
    (router : Router) (method : string) (path : string)
    (fn : Ctx → denote Params → M (denote Response * error))
    (options : list (gmap string string)) : M unit :=
  Router_Register router method path
    (HandlerFunc_Handler (Register_func fn)) options.

(** [type optionsRouter struct { router Router; options []map[string]string }] *)
Record optionsRouter := {
  router : Router;
  options : list (gmap string string);
}.

(** [func (o optionsRouter) Register(method, path, api, options...)] *)
Definition optionsRouter_Register (o : optionsRouter)
    (method : string) (path : string) (api : Handler)
    (options_ : list (gmap string string)) : M unit :=
  Router_Register (router o) method path api (options o ++ options_).

(** An [optionsRouter] used where a [Router] is expected. *)
Definition optionsRouter_Router (o : optionsRouter) : Router :=
  {| Router_Register := optionsRouter_Register o |}.

(** [type RouterGroup[Handler] struct { register func(router, handler) }] *)
Record RouterGroup (Handler_ : ty) := {
  register : Router → denote Handler_ → M unit;
}.
Arguments register {Handler_} _ _ _ _.

(** [func (g RouterGroup[Handler]) Bind(router, bind) (err error)] *)
Definition RouterGroup_Bind {Handler_ : ty} (g : RouterGroup Handler_)
    (router : Router) (bind : Bind) : M error :=
  let handler : denote Handler_ := zero Handler_ in
  '(handler, err) ← bind Handler_ handler;
  match err with
  | Some _ => mret err
  | None =>
      _ ← register g router handler;
      mret err
  end.

(** A [RouterGroup] used where a [Binder] is expected. *)
Definition RouterGroup_Binder {Handler_ : ty} (g : RouterGroup Handler_)
    : Binder :=
  {| Binder_Bind := RouterGroup_Bind g |}.

(** [func DefineGroup[Handler](registerFn, options...) Binder] *)
Definition DefineGroup {Handler_ : ty}
    (registerFn : Router → denote Handler_ → M unit)
    (options : list (gmap string string)) : Binder :=
  RouterGroup_Binder
    {| register := λ (router : Router) (handler : denote Handler_),
         registerFn
           (optionsRouter_Router {| router := router; options := options |})
           handler |}.

(** [sync.Mutex], as far as a single thread of control sees it: [Lock] on a
    held mutex never returns and [Unlock] on a free one is a fatal error;
    both are [None]. *)
Record Mutex := { held : bool }.

Definition Mutex_Lock (m : Mutex) : option Mutex :=
  if held m then None else Some {| held := true |}.

Definition Mutex_Unlock (m : Mutex) : option Mutex :=
  if held m then Some {| held := false |} else None.

(** [type Groups struct { mu sync.Mutex; groups []Binder }] *)
Record Groups := {
  mu : Mutex;
  groups : list Binder;
}.

(** [func NewGroups() *Groups] *)
Definition NewGroups : Groups :=
  {| mu := {| held := false |}; groups := [] |}.

(** [func (g *Groups) Register(groups ...Binder) *Groups]: the registry is
    passed in and the registry the returned pointer designates is the
    result; [defer g.mu.Unlock()] runs last. *)
Definition Groups_Register (g : Groups) (groups_ : list Binder)
    : option Groups :=
  mu1 ← Mutex_Lock (mu g);
  let g := {| mu := mu1; groups := groups g |} in
  let g := {| mu := mu g; groups := groups g ++ groups_ |} in
  mu2 ← Mutex_Unlock (mu g);
  Some {| mu := mu2; groups := groups g |}.

(** The [for _, group := range g.groups] loop of [Groups.Bind], with the
    named result [err] starting as [nil]. *)
Fixpoint Groups_Bind_range (gs : list Binder) (router : Router) (bind : Bind)
    : M error :=
  match gs with
  | [] => mret None
  | group :: rest =>
      err ← Binder_Bind group router bind;
      match err with
      | Some _ => mret err
      | None => Groups_Bind_range rest router bind
      end
  end.

(** [func (g *Groups) Bind(router, bind) (err error)]: the result carries the
    registry as the call leaves it. *)
Definition Groups_Bind (g : Groups) (router : Router) (bind : Bind) (w : W)
    : option (error * Groups * W) :=
  mu1 ← Mutex_Lock (mu g);
  let g := {| mu := mu1; groups := groups g |} in
  let '(err, w) := Groups_Bind_range (groups g) router bind w in
  mu2 ← Mutex_Unlock (mu g);
  Some (err, {| mu := mu2; groups := groups g |}, w).

(** [n] calls of the same method in a row, results in call order. *)
Fixpoint call_n {A : Type} (n : nat) (m : M A) : M (list A) :=
  match n with
  | O => mret []
  | S n' => a ← m; rest ← call_n n' m; mret (a :: rest)
  end.

(** The groups of [gs] are bound one after the other, each on the world the
    previous one left, and each without error: from [w] to [w']. *)
Inductive bound_in_order (router : Router) (bind : Bind)
    : list Binder → W → W → Prop :=
  | bound_nil (w : W) : bound_in_order router bind [] w w
  | bound_cons (group : Binder) (rest : list Binder) (w w1 w2 : W) :
      Binder_Bind group router bind w = (None, w1) →
      bound_in_order router bind rest w1 w2 →
      bound_in_order router bind (group :: rest) w w2.

(** Single-group [Register] calls, one per element of [gs], one after the
    other. *)
Fixpoint Groups_Register_each (g : Groups) (gs : list Binder)
    : option Groups :=
  match gs with
  | [] => Some g
  | group :: rest =>
      g ← Groups_Register g [group];
      Groups_Register_each g rest
  end.

(** ** Concurrent callers of [Groups.Register]

    Goroutines that share one registry, each running the body of
    [Groups.Register] statement by statement; the scheduler may switch
    between them before any statement. [g.groups = append(g.groups,
    groups...)] is two accesses to [g.groups], a read and a write. *)

(** Where a goroutine stands in [Groups.Register]. *)
Inductive Register_pc : Type :=
  | at_Lock                       (* before [g.mu.Lock()] *)
  | at_load                       (* lock taken, before the read of [g.groups] *)
  | at_store (old : list Binder)  (* [g.groups] read, before the write *)
  | at_Unlock                     (* written, before the deferred [Unlock] *)
  | returned.

(** One call [g.Register(groups...)] in progress. *)
Record Register_call := {
  call_groups : list Binder;
  call_pc : Register_pc;
}.

Definition moved_to (c : Register_call) (pc : Register_pc) : Register_call :=
  {| call_groups := call_groups c; call_pc := pc |}.

(** The next statement of a call, on the shared registry; [None] when the
    call cannot move: it waits for the lock, or it has returned. *)
Definition Register_step (g : Groups) (c : Register_call)
    : option (Groups * Register_call) :=
  match call_pc c with
  | at_Lock =>
      mu1 ← Mutex_Lock (mu g);
      Some ({| mu := mu1; groups := groups g |}, moved_to c at_load)
  | at_load => Some (g, moved_to c (at_store (groups g)))
  | at_store old =>
      Some ({| mu := mu g; groups := old ++ call_groups c |},
            moved_to c at_Unlock)
  | at_Unlock =>
      mu2 ← Mutex_Unlock (mu g);
      Some ({| mu := mu2; groups := groups g |}, moved_to c returned)
  | returned => None
  end.

(** The registry and the calls in progress. *)
Record concurrent := {
  shared : Groups;
  calls : list Register_call;
}.

(** The scheduler picks call [i]: the call runs its next statement, or
    nothing happens when it cannot move or there is no such call. *)
Definition schedule_step (i : nat) (s : concurrent) : concurrent :=
  match calls s !! i with
  | Some c =>
      match Register_step (shared s) c with
      | Some (g, c') => {| shared := g; calls := <[i := c']> (calls s) |}
      | None => s
      end
  | None => s
  end.

(** A schedule is the sequence of the scheduler's picks. *)
Definition run_schedule (schedule : list nat) (s : concurrent) : concurrent :=
  foldl (λ s i, schedule_step i s) s schedule.

(** One call per argument list, none started yet. *)
Definition spawn (g : Groups) (arguments : list (list Binder)) : concurrent :=
  {| shared := g;
     calls := (λ groups_, {| call_groups := groups_; call_pc := at_Lock |})
              <$> arguments |}.

(** Between [Lock] and [Unlock]: the part of the body that reads and
    writes [g.groups]. *)
Definition in_critical_section (c : Register_call) : bool :=
  match call_pc c with
  | at_load | at_store _ | at_Unlock => true
  | at_Lock | returned => false
  end.

(** The write of the call is done. *)
Definition has_stored (c : Register_call) : bool :=
  match call_pc c with
  | at_Unlock | returned => true
  | at_Lock | at_load | at_store _ => false
  end.

Definition has_returned (c : Register_call) : bool :=
  match call_pc c with
  | returned => true
  | _ => false
  end.

Definition all_returned (s : concurrent) : Prop :=
  Forall (λ c, has_returned c = true) (calls s).

(** Statements a call has still to run, and their total. *)
Definition statements_left (c : Register_call) : nat :=
  match call_pc c with
  | at_Lock => 4
  | at_load => 3
  | at_store _ => 2
  | at_Unlock => 1
  | returned => 0
  end.

Definition total_left (s : concurrent) : nat :=
  sum_list (statements_left <$> calls s).

(** What holds of every state the calls can reach from a free registry
    [g0]: the registry holds what [g0] held, followed by the arguments of
    the calls that have stored, in some order; and either the lock is free
    and no call is in the critical section, or it is held and exactly one
    call is, which has read the current sequence if it has read. *)
Definition Register_invariant (g0 : Groups) (s : concurrent) : Prop :=
  (∃ appended : list Binder,
     groups (shared s) = groups g0 ++ appended
     ∧ appended
       ≡ₚ mjoin (call_groups <$> filter (λ c, has_stored c = true) (calls s)))
  ∧ ((held (mu (shared s)) = false
      ∧ ∀ i c, calls s !! i = Some c → in_critical_section c = false)
     ∨ (held (mu (shared s)) = true
        ∧ ∃ i c,
            calls s !! i = Some c
            ∧ in_critical_section c = true
            ∧ (∀ old, call_pc c = at_store old → old = groups (shared s))
            ∧ ∀ j c', j ≠ i → calls s !! j = Some c' →
                      in_critical_section c' = false)).

(** The statements of [Groups.Register] with the two on [g.mu] taken out.
    This is not the program; it shows what the lock is there for. *)
Definition Register_step_without_lock (g : Groups) (c : Register_call)
    : option (Groups * Register_call) :=
  match call_pc c with
  | at_Lock => Some (g, moved_to c at_load)
  | at_load => Some (g, moved_to c (at_store (groups g)))
  | at_store old =>
      Some ({| mu := mu g; groups := old ++ call_groups c |},
            moved_to c at_Unlock)
  | at_Unlock => Some (g, moved_to c returned)
  | returned => None
  end.

Definition run_schedule_without_lock (schedule : list nat) (s : concurrent)
    : concurrent :=
  foldl (λ s i,
           match calls s !! i with
           | Some c =>
               match Register_step_without_lock (shared s) c with
               | Some (g, c') =>
                   {| shared := g; calls := <[i := c']> (calls s) |}
               | None => s
               end
           | None => s
           end) s schedule.

End Core.

End xmux.

(** The gin adapter's consumer of the option maps a router receives. *)
Module adapter.

(** [func mergeOptions(options ...map[string]string) map[string]string]:
    [result[k] = v] for every entry of every map, maps taken in order. *)
Definition mergeOptions (options : list (gmap string string))
    : gmap string string :=
  foldl
    (λ (result : gmap string string) (opts : gmap string string),
       map_fold (λ (k v : string) (result : gmap string string),
                   <[k := v]> result) result opts)
    ∅ options.

(** ** The rest of the gin adapter *)

Import xmux.

(** Non-nil [error] values as the adapter can tell them apart: by their
    text ([Error()]), by what they wrap ([Unwrap()]) and by being a
    [*BindError]. [errorString] is an error without [Unwrap] ([errors.New],
    a decoder error); [wrapError] carries its full text and the error it
    wraps ([fmt.Errorf] with [%w]). Errors that wrap several errors are not
    part of the universe. *)
Inductive errval : Type :=
  | errorString (s : string)
  | wrapError (msg : string) (err : errval)
  | ptrBindError (e : BindError)
(** [type BindError struct { Type string; Message string; Err error }] *)
with BindError : Type :=
  | Build_BindError (Type_ : string) (Message : string) (Err : option errval).

Definition Type_ (e : BindError) : string :=
  match e with Build_BindError t _ _ => t end.

Definition Message (e : BindError) : string :=
  match e with Build_BindError _ m _ => m end.

Definition Err_ (e : BindError) : option errval :=
  match e with Build_BindError _ _ err => err end.

(** [err.Error()], with [func (e *BindError) Error() string] as one case. *)
Fixpoint errval_Error (err : errval) : string :=
  match err with
  | errorString s => s
  | wrapError msg _ => msg
  | ptrBindError e => BindError_Error e
  end
with BindError_Error (e : BindError) : string :=
  match e with
  | Build_BindError _ message (Some err) =>
      message +:+ ": " +:+ errval_Error err
  | Build_BindError _ message None => message
  end.

(** [func (e *BindError) Unwrap() error] *)
Definition BindError_Unwrap (e : BindError) : option errval := Err_ e.

(** [errors.Unwrap(err)] *)
Definition errval_Unwrap (err : errval) : option errval :=
  match err with
  | errorString _ => None
  | wrapError _ inner => Some inner
  | ptrBindError e => BindError_Unwrap e
  end.

(** [errors.As(err, &bindErr)] for [bindErr *BindError]: the first
    [*BindError] on the [Unwrap] chain of [err], [err] included. *)
Fixpoint errors_As (err : errval) : option BindError :=
  match err with
  | errorString _ => None
  | wrapError _ inner => errors_As inner
  | ptrBindError e => Some e
  end.

(** [strings.HasPrefix(s, prefix)] *)
Definition HasPrefix (s prefix : string) : bool := String.prefix prefix s.

(** [type RouterConfig struct { APIVersion string; DebugMode bool }] *)
Record RouterConfig := {
  APIVersion : string;
  DebugMode : bool;
}.

(** [func DefaultRouterConfig() RouterConfig] *)
Definition DefaultRouterConfig : RouterConfig :=
  {| APIVersion := "v1"; DebugMode := false |}.

(** [func (r *GinRouter) normalizePath(path string) string], which reads
    [r.config] only. *)
Definition normalizePath (config : RouterConfig) (path : string) : string :=
  let path := if negb (HasPrefix path "/") then "/" +:+ path else path in
  let path :=
    if negb (HasPrefix path "/api/")
    then "/api/" +:+ APIVersion config +:+ path
    else path in
  path.

(** What the program is made of besides its errors, which in this package
    are [errval]. *)
Class Base := {
  bW : Type;
  bCtx : Type;
  bty : Type;
  bdenote : bty → Type;
  bzero : ∀ t : bty, bdenote t;
}.

#[export] Instance gin_env {base : Base} : Env :=
  {| W := bW; Err := errval; Ctx := bCtx;
     ty := bty; denote := bdenote; zero := bzero |}.

Section Gin.
Context {base : Base}.

(** [gin.Param] *)
Record Param := { Key : string; Value : string }.

(** What the adapter reads of a [*gin.Context]. The request body is a
    stream and lives in the world; see [Decode]. *)
Record Context := {
  Request_Context : Ctx;                 (* c.Request.Context() *)
  Request_Header : gmap string string;   (* c.GetHeader(key) *)
  ClientIP : string;                     (* c.ClientIP() *)
  Request_Body : bool;                   (* c.Request.Body != nil *)
  Request_ContentLength : Z;             (* c.Request.ContentLength *)
  Params : list Param;                   (* c.Params *)
}.

(** The value handed to [c.JSON]: a handler result or the
    [map[string]any] of an error response, whose values are strings. *)
Inductive Obj : Type :=
  | obj_result (result : any)
  | obj_map (m : gmap string string).

(** What the adapter writes to a [*gin.Context], as the calls it makes. *)
Inductive Call : Type :=
  | Header (key value : string)          (* c.Header(key, value) *)
  | JSON (code : Z) (obj : Obj).         (* c.JSON(code, obj) *)

(** [*gin.Engine], of which the adapter uses [Handle]. *)
Record Engine := {
  Engine_Handle : string → string → (Context → M (list Call)) → M unit;
}.

(** [type GinRouter struct { engine *gin.Engine; config RouterConfig }] *)
Record GinRouter := {
  engine : Engine;
  config : RouterConfig;
}.

(** [json.NewDecoder(c.Request.Body).Decode(ptr)], which consumes the body
    of the request in the world, and [uuid.Parse]. *)
Context (Decode : Bind) (UUID : Type) (uuid_Parse : string → option UUID).

(** [func (r *GinRouter) enrichContext(c) context.Context]: the header and
    the client address are read and dropped. *)
Definition enrichContext (r : GinRouter) (c : Context) : Ctx :=
  let ctx := Request_Context c in
  let _ :=
    let requestID := default "" (Request_Header c !! "X-Request-ID") in
    if negb (String.eqb requestID "") then Some requestID else None in
  let _ :=
    let clientIP := ClientIP c in
    if negb (String.eqb clientIP "") then Some clientIP else None in
  ctx.

(** [func (r *GinRouter) bindQueryParams(c, ptr) error] *)
Definition bindQueryParams (r : GinRouter) (c : Context) : option errval :=
  None.

(** [func (r *GinRouter) bindPathParams(c, ptr) error]: the parsed id is
    dropped. *)
Definition bindPathParams (r : GinRouter) (c : Context) : option errval :=
  let params := Params c in
  let _ :=
    foldl (λ (_ : unit) (param : Param),
             if String.eqb (Key param) "id"
             then match uuid_Parse (Value param) with
                  | Some id => let _ := id in tt
                  | None => tt
                  end
             else tt)
          tt params in
  None.

(** [func (r *GinRouter) bindHeaders(c, ptr) error] *)
Definition bindHeaders (r : GinRouter) (c : Context) : option errval :=
  None.

(** [func (r *GinRouter) createBindFunction(c, method) xmux.Bind] *)
Definition createBindFunction (r : GinRouter) (c : Context) (method : string)
    : Bind :=
  λ (t : ty) (ptr : denote t),
    '(ptr, err) ←
      (if String.eqb method "POST" || String.eqb method "PUT"
          || String.eqb method "PATCH"
       then
         if Request_Body c && (0 <? Request_ContentLength c)%Z
         then
           '(ptr, err) ← Decode t ptr;
           match err with
           | Some err =>
               mret (ptr,
                     Some (ptrBindError
                             (Build_BindError "json_parse"
                                "Failed to parse JSON body" (Some err))))
           | None => mret (ptr, None)
           end
         else mret (ptr, None)
       else mret (ptr, None)) : M (denote t * error);
    match err with
    | Some _ => mret (ptr, err)
    | None =>
        match bindQueryParams r c with
        | Some err => mret (ptr, Some err)
        | None =>
            match bindPathParams r c with
            | Some err => mret (ptr, Some err)
            | None =>
                match bindHeaders r c with
                | Some err => mret (ptr, Some err)
                | None => mret (ptr, None)
                end
            end
        end
    end.

(** The error value [createBindFunction] makes of a decoder error. *)
Definition json_parse_error (inner : errval) : errval :=
  ptrBindError
    (Build_BindError "json_parse" "Failed to parse JSON body" (Some inner)).

(** [func (r *GinRouter) handleError(c, err, options)] *)
Definition handleError (r : GinRouter) (c : Context) (err : error)
    (options : gmap string string) : list Call :=
  let statusCode := 500%Z in
  let errorCode := "internal_error" in
  let message := "Internal server error" in
  let '(statusCode, errorCode, message) :=
    match err ≫= errors_As with
    | Some bindErr =>
        (400%Z, Type_ bindErr,
         if DebugMode (config r) then BindError_Error bindErr
         else Message bindErr)
    | None => (statusCode, errorCode, message)
    end in
  let errorResponse : gmap string string :=
    {[ "error" := errorCode; "message" := message ]} in
  let errorResponse :=
    match err with
    | Some e =>
        if DebugMode (config r)
        then <[ "details" := errval_Error e ]> errorResponse
        else errorResponse
    | None => errorResponse
    end in
  [ Header "X-API-Version" (APIVersion (config r));
    JSON statusCode (obj_map errorResponse) ].

(** [func (r *GinRouter) handleResponse(c, result, err, options)] *)
Definition handleResponse (r : GinRouter) (c : Context) (result : any)
    (err : error) (options : gmap string string) : list Call :=
  match err with
  | Some _ => handleError r c err options
  | None =>
      let format := default "" (options !! "format") in
      let format := if String.eqb format "" then "json" else format in
      [ Header "X-API-Version" (APIVersion (config r));
        Header "Content-Type" "application/json" ]
      ++ (if String.eqb format "json"
          then [ JSON 200 (obj_result result) ]
          else [ JSON 200 (obj_result result) ])
  end.

(** The function literal that [GinRouter.Register] hands to the engine. *)
Definition GinRouter_Register_func (r : GinRouter) (method : string)
    (api : Handler) (routeOptions : gmap string string)
    : Context → M (list Call) :=
  λ (c : Context),
    let ctx := enrichContext r c in
    let bind := createBindFunction r c method in
    '(result, err) ← Handler_Invoke api ctx bind;
    mret (handleResponse r c result err routeOptions).

(** [func (r *GinRouter) Register(method, path, api, options...)] *)
Definition GinRouter_Register (r : GinRouter)
    (method : string) (path : string) (api : Handler)
    (options : list (gmap string string)) : M unit :=
  let routeOptions := mergeOptions options in
  let handler := GinRouter_Register_func r method api routeOptions in
  Engine_Handle (engine r) method (normalizePath (config r) path) handler.

(** A [*GinRouter] used where an [xmux.Router] is expected. *)
Definition GinRouter_Router (r : GinRouter) : Router :=
  {| Router_Register := GinRouter_Register r |}.

End Gin.

End adapter.

(** Test doubles: a small program universe, a recording router, a counting
    business function and three resolvers. *)
Module Demo.
Import xmux.

Inductive dty := HelloParams | HelloResponse | IUser | IOrder.

Definition ddenote (t : dty) : Type :=
  match t with
  | HelloParams => string          (* struct { Name string } *)
  | HelloResponse => string        (* struct { Message string } *)
  | IUser => option string         (* interface: nil or a named implementation *)
  | IOrder => option string
  end.

Definition dzero (t : dty) : ddenote t :=
  match t with
  | HelloParams => EmptyString
  | HelloResponse => EmptyString
  | IUser => None
  | IOrder => None
  end.

(** What a router keeps of one [Register] call. *)
Record route := {
  r_method : string;
  r_path : string;
  r_params : { t : dty & ddenote t };
  r_response : { t : dty & ddenote t };
  r_options : list (gmap string string);
}.

Record world := {
  routes : list route;      (* the router's table, oldest first *)
  fn_calls : nat;           (* calls of business functions *)
  reg_calls : nat;          (* calls of registration functions *)
  router_calls : nat;       (* calls of the tallying router *)
}.

#[export] Instance demo_env : Env :=
  {| W := world; Err := string; Ctx := unit;
     ty := dty; denote := ddenote; zero := dzero |}.

Definition w0 : world :=
  {| routes := []; fn_calls := 0; reg_calls := 0; router_calls := 0 |}.

Definition add_route (r : route) (w : world) : world :=
  {| routes := routes w ++ [r]; fn_calls := fn_calls w;
     reg_calls := reg_calls w; router_calls := router_calls w |}.

Definition tick_fn (w : world) : world :=
  {| routes := routes w; fn_calls := S (fn_calls w);
     reg_calls := reg_calls w; router_calls := router_calls w |}.

Definition tick_reg (w : world) : world :=
  {| routes := routes w; fn_calls := fn_calls w;
     reg_calls := S (reg_calls w); router_calls := router_calls w |}.

Definition tick_router (w : world) : world :=
  {| routes := routes w; fn_calls := fn_calls w;
     reg_calls := reg_calls w; router_calls := S (router_calls w) |}.

(** A router that only counts the calls it receives. *)
Definition tally : Router :=
  {| Router_Register := λ _ _ _ _, (λ w, (tt, tick_router w)) : M unit |}.

(** A router that asks the handler for its declared types and stores the
    call. *)
Definition store (r : route) : M unit := λ w, (tt, add_route r w).

Definition recorder : Router :=
  {| Router_Register := λ method path api options,
       (p ← Handler_Params api;
        r ← Handler_Response api;
        store {| r_method := method; r_path := path;
                 r_params := p; r_response := r;
                 r_options := options |}) : M unit |}.

(** A business function that counts its calls. *)
Definition hello (ctx : unit) (params : string) : M (string * error) :=
  λ w, (("Hello, " +:+ params, None), tick_fn w).

(** A business function that counts its calls and fails. *)
Definition refuse (ctx : unit) (params : string) : M (string * error) :=
  λ w, (("partial", Some "refused"), tick_fn w).

(** Resolves every slot. *)
Definition resolve_all : Bind :=
  λ t, match t return ddenote t → M (ddenote t * error) with
       | HelloParams => λ _ w, (("gopher", None), w)
       | HelloResponse => λ v w, ((v, None), w)
       | IUser => λ _ w, ((Some "UserService", None), w)
       | IOrder => λ _ w, ((Some "OrderService", None), w)
       end.

(** Resolves nothing: scribbles on request slots and fails. *)
Definition resolve_none : Bind :=
  λ t, match t return ddenote t → M (ddenote t * error) with
       | HelloParams => λ _ w, (("garbage", Some "bad request"), w)
       | HelloResponse => λ v w, ((v, Some "bad request"), w)
       | IUser => λ v w, ((v, Some "no IUser"), w)
       | IOrder => λ v w, ((v, Some "no IOrder"), w)
       end.

(** Knows [IUser] only. *)
Definition resolve_user : Bind :=
  λ t, match t return ddenote t → M (ddenote t * error) with
       | IOrder => λ v w, ((v, Some "no IOrder"), w)
       | t' => resolve_all t'
       end.

Definition group_opts : list (gmap string string) :=
  [ {[ "x" := "0"; "y" := "2" ]} ].

Definition route_opts : list (gmap string string) :=
  [ {[ "x" := "1" ]} ].

(** Every registration function counts its calls first. *)
Definition entered : M unit := λ w, (tt, tick_reg w).

(** Group A: two routes, depends on [IUser]. *)
Definition registerA (router : Router) (user : option string) : M unit :=
  _ ← entered;
  _ ← Register (Params := HelloParams) (Response := HelloResponse)
        router "GET" "/users" hello route_opts;
  Register (Params := HelloParams) (Response := HelloResponse)
    router "POST" "/users" refuse [].

Definition groupA : Binder :=
  DefineGroup (Handler_ := IUser) registerA group_opts.

(** Group B: one route, depends on [IOrder]. *)
Definition registerB (router : Router) (order : option string) : M unit :=
  _ ← entered;
  Register (Params := HelloParams) (Response := HelloResponse)
    router "GET" "/orders" hello [].

Definition groupB : Binder :=
  DefineGroup (Handler_ := IOrder) registerB [].

(** Group C: one route, depends on [IUser]. *)
Definition registerC (router : Router) (user : option string) : M unit :=
  _ ← entered;
  Register (Params := HelloParams) (Response := HelloResponse)
    router "DELETE" "/users" hello [].

Definition groupC : Binder :=
  DefineGroup (Handler_ := IUser) registerC [].

(** The registry after [Register(A, B)] and [Register(C)]. *)
Definition registryABC : Groups :=
  {| mu := {| held := false |}; groups := [groupA; groupB; groupC] |}.

(** The registry holding the groups that need [IUser] only. *)
Definition registryAC : Groups :=
  {| mu := {| held := false |}; groups := [groupA; groupC] |}.

(** The world after group A alone was bound on the recorder. *)
Definition afterA : world :=
  snd (Binder_Bind groupA recorder resolve_user w0).

Definition afterAC : world :=
  snd (Binder_Bind groupC recorder resolve_user afterA).

(** The handler [Register] builds for [hello]. *)
Definition hello_handler : Handler :=
  HandlerFunc_Handler
    (Register_func (Params := HelloParams) (Response := HelloResponse) hello).

End Demo.

(** The echo adapter of the examples. *)
Module echo_adapter.
Import xmux.

Section Echo.
Context {env : Env}.

(** [err.Error()] for the errors of the program. *)
Context (Err_Error : Err → string).

(** [echo.Context], of which the adapter uses the request's context and
    [JSON(code, i) error]. *)
Record Context := {
  Request_Context : Ctx;
  Context_JSON : Z → gmap string string → M error;
}.

(** [*echo.Echo], of which the adapter uses [Add]. *)
Record Echo := {
  Echo_Add : string → string → (Context → M error) → M unit;
}.

(** [type EchoRouter struct { e *echo.Echo }] *)
Record EchoRouter := { e : Echo }.

(** The function literal that [EchoRouter.Register] hands to echo. *)
Definition EchoRouter_Register_func (api : Handler) : Context → M error :=
  λ (c : Context),
    let bind : Bind := λ (t : ty) (ptr : denote t), mret (ptr, None) in
    '(_, err) ← Handler_Invoke api (Request_Context c) bind;
    match err with
    | Some err => Context_JSON c 500 {[ "error" := Err_Error err ]}
    | None => Context_JSON c 200 {[ "message" := "hello" ]}
    end.

(** [func (r *EchoRouter) Register(method, path, api, options...)] *)
Definition EchoRouter_Register (r : EchoRouter)
    (method : string) (path : string) (api : Handler)
    (options : list (gmap string string)) : M unit :=
  let handler := EchoRouter_Register_func api in
  Echo_Add (e r) method path handler.

(** An [*EchoRouter] used where an [xmux.Router] is expected. *)
Definition EchoRouter_Router (r : EchoRouter) : Router :=
  {| Router_Register := EchoRouter_Register r |}.

End Echo.

End echo_adapter.

(** The user store of the gin-business example: [models.User], the
    in-memory repository and the two service methods that only read or
    delete.

    The repository keeps pointers. [Ptr] is the type of non-nil
    [*models.User] values and [deref] the content of the heap they point
    into; no repository method writes through a pointer. [range] over a Go
    map visits the entries in an order the language leaves open: a method
    that ranges takes that order as an argument, and the properties below
    hold for every order that lists the entries of the map. Go's [int] is
    64 bits wide. The [ctx] argument of the methods, which none of them
    reads, is left out. *)
Module repository.
Import adapter.

(** [var ErrUserNotFound = errors.New("user not found")], and the like. *)
Definition ErrUserNotFound : errval := errorString "user not found".
Definition ErrUserAlreadyExists : errval := errorString "user already exists".
Definition ErrInvalidPassword : errval := errorString "invalid password".

(** [sync.RWMutex] as one thread of control sees it; [None] is a call that
    does not return (a lock that is not granted, an unlock of a mutex that
    is not locked). *)
Record RWMutex := { writer : bool; readers : nat }.

Definition RWMutex_Lock (m : RWMutex) : option RWMutex :=
  if writer m then None
  else match readers m with
       | O => Some {| writer := true; readers := 0 |}
       | S _ => None
       end.

Definition RWMutex_Unlock (m : RWMutex) : option RWMutex :=
  if writer m then Some {| writer := false; readers := readers m |} else None.

Definition RWMutex_RLock (m : RWMutex) : option RWMutex :=
  if writer m then None
  else Some {| writer := false; readers := S (readers m) |}.

Definition RWMutex_RUnlock (m : RWMutex) : option RWMutex :=
  match readers m with
  | O => None
  | S n => Some {| writer := writer m; readers := n |}
  end.

(** A lock nobody holds. *)
Definition free (m : RWMutex) : Prop := writer m = false ∧ readers m = 0.

(** Go's [int]: the sum of two [int]s wraps around. *)
Definition int_add (a b : Z) : Z :=
  ((a + b + 2 ^ 63) `mod` 2 ^ 64 - 2 ^ 63)%Z.

Section Repository.
Context {UUID : Type} `{Countable UUID} {Time : Type}.

(** [type User struct] of package [models] *)
Record User := {
  ID : UUID;
  Username : string;
  Email : string;
  Password : string;
  FullName : string;
  Role : string;
  CreatedAt : Time;
  UpdatedAt : Time;
}.

Context {Ptr : Type} (deref : Ptr → User).

(** [type InMemoryUserRepository struct { mu sync.RWMutex; users map[uuid.UUID]*models.User }] *)
Record InMemoryUserRepository := {
  mu : RWMutex;
  users : gmap UUID Ptr;
}.

(** How a method call ends: it returns, with the repository as it leaves
    it; it panics, its deferred unlock done; or it does not return. *)
Inductive outcome (A : Type) : Type :=
  | Return (a : A) (r : InMemoryUserRepository)
  | Panic (r : InMemoryUserRepository)
  | NoReturn.
Arguments Return {A} a r.
Arguments Panic {A} r.
Arguments NoReturn {A}.

(** [func NewInMemoryUserRepository() *InMemoryUserRepository] *)
Definition NewInMemoryUserRepository : InMemoryUserRepository :=
  {| mu := {| writer := false; readers := 0 |}; users := ∅ |}.

(** [r.mu.Lock(); defer r.mu.Unlock()] around a method body that ends by
    returning or by a panic. *)
Definition locked {A : Type} (r : InMemoryUserRepository)
    (body : InMemoryUserRepository → outcome A) : outcome A :=
  match RWMutex_Lock (mu r) with
  | None => NoReturn
  | Some mu1 =>
      match body {| mu := mu1; users := users r |} with
      | Return a r' =>
          match RWMutex_Unlock (mu r') with
          | Some mu2 => Return a {| mu := mu2; users := users r' |}
          | None => NoReturn
          end
      | Panic r' =>
          match RWMutex_Unlock (mu r') with
          | Some mu2 => Panic {| mu := mu2; users := users r' |}
          | None => NoReturn
          end
      | NoReturn => NoReturn
      end
  end.

(** [r.mu.RLock(); defer r.mu.RUnlock()] around a method body. *)
Definition rlocked {A : Type} (r : InMemoryUserRepository)
    (body : InMemoryUserRepository → outcome A) : outcome A :=
  match RWMutex_RLock (mu r) with
  | None => NoReturn
  | Some mu1 =>
      match body {| mu := mu1; users := users r |} with
      | Return a r' =>
          match RWMutex_RUnlock (mu r') with
          | Some mu2 => Return a {| mu := mu2; users := users r' |}
          | None => NoReturn
          end
      | Panic r' =>
          match RWMutex_RUnlock (mu r') with
          | Some mu2 => Panic {| mu := mu2; users := users r' |}
          | None => NoReturn
          end
      | NoReturn => NoReturn
      end
  end.

(** The loop of [Create]: the first entry with the username or the email
    of [user] ends it. *)
Fixpoint Create_range (order : list (UUID * Ptr)) (user : Ptr)
    : option errval :=
  match order with
  | [] => None
  | (_, u) :: rest =>
      if String.eqb (Username (deref u)) (Username (deref user))
      then Some ErrUserAlreadyExists
      else if String.eqb (Email (deref u)) (Email (deref user))
      then Some ErrUserAlreadyExists
      else Create_range rest user
  end.

(** [func (r *InMemoryUserRepository) Create(ctx, user) error] *)
Definition Create (r : InMemoryUserRepository) (order : list (UUID * Ptr))
    (user : Ptr) : outcome (option errval) :=
  locked r (λ r,
    match Create_range order user with
    | Some err => Return (Some err) r
    | None =>
        Return None
          {| mu := mu r; users := <[ID (deref user) := user]> (users r) |}
    end).

(** [func (r *InMemoryUserRepository) FindByID(ctx, id) (user *models.User, err error)] *)
Definition FindByID (r : InMemoryUserRepository) (id : UUID)
    : outcome (option Ptr * option errval) :=
  rlocked r (λ r,
    match users r !! id with
    | None => Return (None, Some ErrUserNotFound) r
    | Some user => Return (Some user, None) r
    end).

(** The loop of [FindByUsername]. *)
Fixpoint FindByUsername_range (order : list (UUID * Ptr)) (username : string)
    : option Ptr :=
  match order with
  | [] => None
  | (_, user) :: rest =>
      if String.eqb (Username (deref user)) username then Some user
      else FindByUsername_range rest username
  end.

(** [func (r *InMemoryUserRepository) FindByUsername(ctx, username) (user *models.User, err error)] *)
Definition FindByUsername (r : InMemoryUserRepository)
    (order : list (UUID * Ptr)) (username : string)
    : outcome (option Ptr * option errval) :=
  rlocked r (λ r,
    match FindByUsername_range order username with
    | Some user => Return (Some user, None) r
    | None => Return (None, Some ErrUserNotFound) r
    end).

(** The loop of [FindByEmail]. *)
Fixpoint FindByEmail_range (order : list (UUID * Ptr)) (email : string)
    : option Ptr :=
  match order with
  | [] => None
  | (_, user) :: rest =>
      if String.eqb (Email (deref user)) email then Some user
      else FindByEmail_range rest email
  end.

(** [func (r *InMemoryUserRepository) FindByEmail(ctx, email) (user *models.User, err error)] *)
Definition FindByEmail (r : InMemoryUserRepository)
    (order : list (UUID * Ptr)) (email : string)
    : outcome (option Ptr * option errval) :=
  rlocked r (λ r,
    match FindByEmail_range order email with
    | Some user => Return (Some user, None) r
    | None => Return (None, Some ErrUserNotFound) r
    end).

(** [func (r *InMemoryUserRepository) Update(ctx, user) error] *)
Definition Update (r : InMemoryUserRepository) (user : Ptr)
    : outcome (option errval) :=
  locked r (λ r,
    match users r !! ID (deref user) with
    | None => Return (Some ErrUserNotFound) r
    | Some _ =>
        Return None
          {| mu := mu r; users := <[ID (deref user) := user]> (users r) |}
    end).

(** [func (r *InMemoryUserRepository) Delete(ctx, id) error] *)
Definition Delete (r : InMemoryUserRepository) (id : UUID)
    : outcome (option errval) :=
  locked r (λ r,
    match users r !! id with
    | None => Return (Some ErrUserNotFound) r
    | Some _ => Return None {| mu := mu r; users := delete id (users r) |}
    end).

(** [func (r *InMemoryUserRepository) List(ctx, limit, offset) (users []*models.User, err error)]:
    [users[start:end]] panics unless [0 <= start <= end <= cap(users)], and
    the capacity is the number of entries. *)
Definition List (r : InMemoryUserRepository) (order : list (UUID * Ptr))
    (limit offset : Z) : outcome (list Ptr * option errval) :=
  rlocked r (λ r,
    let users_ := foldl (λ users_ entry, users_ ++ [entry.2]) [] order in
    let limit := if (limit =? 0)%Z then 10%Z else limit in
    let start := offset in
    let end_ := int_add offset limit in
    let len := Z.of_nat (length users_) in
    let start := if (len <? start)%Z then len else start in
    let end_ := if (len <? end_)%Z then len else end_ in
    if (0 <=? start)%Z && (start <=? end_)%Z && (end_ <=? len)%Z
    then Return (take (Z.to_nat (end_ - start))
                   (drop (Z.to_nat start) users_), None) r
    else Panic r).

(** [func (r *InMemoryUserRepository) Count(ctx) (int, error)] *)
Definition Count (r : InMemoryUserRepository)
    : outcome (Z * option errval) :=
  rlocked r (λ r, Return (Z.of_nat (size (users r)), None) r).

(** No two entries share a username or an email. *)
Definition distinct_users (m : gmap UUID Ptr) : Prop :=
  ∀ id1 id2 u1 u2,
    m !! id1 = Some u1 → m !! id2 = Some u2 →
    Username (deref u1) = Username (deref u2)
    ∨ Email (deref u1) = Email (deref u2) →
    id1 = id2.

(** Every entry is filed under the id of its user. *)
Definition filed_by_id (m : gmap UUID Ptr) : Prop :=
  ∀ id u, m !! id = Some u → ID (deref u) = id.

(** [order] is an order in which [range] may visit [m]. *)
Definition visits (order : list (UUID * Ptr)) (m : gmap UUID Ptr) : Prop :=
  order ≡ₚ map_to_list m.

(** [type UserResponse struct] of package [types] *)
Record UserResponse := {
  resp_ID : UUID;
  resp_Username : string;
  resp_Email : string;
  resp_FullName : string;
  resp_Role : string;
  resp_CreatedAt : Time;
  resp_UpdatedAt : Time;
}.

(** [func FromUser(user *models.User) *UserResponse] *)
Definition FromUser (user : option Ptr) : option UserResponse :=
  match user with
  | None => None
  | Some user =>
      Some {| resp_ID := ID (deref user);
              resp_Username := Username (deref user);
              resp_Email := Email (deref user);
              resp_FullName := FullName (deref user);
              resp_Role := Role (deref user);
              resp_CreatedAt := CreatedAt (deref user);
              resp_UpdatedAt := UpdatedAt (deref user) |}
  end.

(** [fmt.Errorf(prefix + ": %w", err)] *)
Definition Errorf_w (prefix : string) (err : errval) : errval :=
  wrapError (prefix +:+ ": " +:+ errval_Error err) err.

(** [func (s *userServiceImpl) GetUser(ctx, userID) (resp *types.UserResponse, err error)],
    with the in-memory repository as [s.userRepo]. *)
Definition GetUser (userRepo : InMemoryUserRepository) (userID : UUID)
    : outcome (option UserResponse * option errval) :=
  match FindByID userRepo userID with
  | Return (user, Some err) userRepo =>
      Return (None, Some (Errorf_w "failed to find user" err)) userRepo
  | Return (user, None) userRepo => Return (FromUser user, None) userRepo
  | Panic userRepo => Panic userRepo
  | NoReturn => NoReturn
  end.

(** [func (s *userServiceImpl) GetProfile(ctx, userID) (resp *types.UserResponse, err error)] *)
Definition GetProfile (userRepo : InMemoryUserRepository) (userID : UUID)
    : outcome (option UserResponse * option errval) :=
  GetUser userRepo userID.

(** [func (s *userServiceImpl) DeleteUser(ctx, userID) error] *)
Definition DeleteUser (userRepo : InMemoryUserRepository) (userID : UUID)
    : outcome (option errval) :=
  match Delete userRepo userID with
  | Return (Some err) userRepo =>
      Return (Some (Errorf_w "failed to delete user" err)) userRepo
  | Return None userRepo => Return None userRepo
  | Panic userRepo => Panic userRepo
  | NoReturn => NoReturn
  end.

End Repository.

Arguments Return {UUID _ _ Ptr A} a r.
Arguments Panic {UUID _ _ Ptr A} r.
Arguments NoReturn {UUID _ _ Ptr A}.

End repository.

(** Test doubles for the gin adapter: an engine that lists what is mounted,
    a decoder that reads the body held in the world, a greeting service. *)
Module DemoGin.
Import xmux adapter.

Record gworld := {
  body : option string;            (* the unread request body *)
  mounted : list (string * string);(* method and path of the engine's routes *)
  served : nat;                    (* calls of business functions *)
}.

#[export] Instance demo_base : Base :=
  {| bW := gworld; bCtx := unit; bty := Demo.dty;
     bdenote := Demo.ddenote; bzero := Demo.dzero |}.

Definition gw0 : gworld := {| body := None; mounted := []; served := 0 |}.

Definition with_body (s : string) : gworld :=
  {| body := Some s; mounted := []; served := 0 |}.

(** Reads the whole body; a name in the body fills a [HelloParams] slot, a
    body that starts with a brace of the wrong kind is rejected. *)
Definition decode : Bind :=
  λ t, match t return Demo.ddenote t → M (Demo.ddenote t * error) with
       | Demo.HelloParams => λ ptr w,
           let w' := {| body := None; mounted := mounted w;
                        served := served w |} in
           match body w with
           | Some s =>
               if String.prefix "}" s
               then ((ptr, Some (errorString "invalid character")), w')
               else ((s, None), w')
           | None => ((ptr, Some (errorString "EOF")), w')
           end
       | _ => λ ptr w, ((ptr, None), w)
       end.

Definition mount : Engine :=
  {| Engine_Handle := λ method path _,
       (λ w, (tt, {| body := body w;
                     mounted := mounted w ++ [(method, path)];
                     served := served w |})) : M unit |}.

Definition gin_router : GinRouter :=
  {| engine := mount; config := DefaultRouterConfig |}.

Definition gin_router_debug : GinRouter :=
  {| engine := mount; config := {| APIVersion := "v1"; DebugMode := true |} |}.

Definition request (length : Z) : Context :=
  {| Request_Context := tt; Request_Header := ∅; ClientIP := "10.0.0.1";
     Request_Body := true; Request_ContentLength := length;
     Params := [ {| Key := "id"; Value := "42" |} ] |}.

Definition parse_uuid (s : string) : option nat := None.

Definition greet (ctx : unit) (params : string) : M (string * error) :=
  λ w, (("Hello, " +:+ params, None),
        {| body := body w; mounted := mounted w; served := S (served w) |}).

Definition not_found : errval :=
  wrapError "failed to find user: user not found"
    (errorString "user not found").

Definition missing (ctx : unit) (params : string) : M (string * error) :=
  λ w, (("", Some not_found),
        {| body := body w; mounted := mounted w; served := S (served w) |}).

Definition parse_failure : errval :=
  ptrBindError
    (Build_BindError "json_parse" "Failed to parse JSON body"
       (Some (errorString "invalid character"))).

Definition greet_handler : Handler :=
  HandlerFunc_Handler
    (Register_func (Params := Demo.HelloParams)
       (Response := Demo.HelloResponse) greet).

Definition missing_handler : Handler :=
  HandlerFunc_Handler
    (Register_func (Params := Demo.HelloParams)
       (Response := Demo.HelloResponse) missing).

(** A group with one route, given as a relative path, and a prefix option. *)
Definition users_group : Binder :=
  DefineGroup (Handler_ := Demo.IUser)
    (λ router _,
       Register (Params := Demo.HelloParams) (Response := Demo.HelloResponse)
         router "GET" "users" greet [])
    [ {[ "prefix" := "/api/v9" ]} ].

Definition resolve_any : Bind := λ t ptr, mret (ptr, None).

End DemoGin.

(** Test doubles for the echo adapter, on the world of [Demo]. *)
Module DemoEcho.
Import xmux echo_adapter.

(** A context whose [JSON] counts one call on the tallying counter and
    reports no error. *)
Definition echo_context : Context (env := Demo.demo_env) :=
  @Build_Context Demo.demo_env tt (λ _ _ w, (None, Demo.tick_router w)).

End DemoEcho.

(** Test doubles for the repository: ids, times and pointers are numbers,
    the heap holds three users, two of them with the same username. *)
Module DemoRepo.
Import adapter repository.

Definition person (id : nat) (username email : string)
    : User (UUID := nat) (Time := nat) :=
  {| ID := id; Username := username; Email := email; Password := "$2a$10$";
     FullName := username; Role := "user"; CreatedAt := 0; UpdatedAt := 0 |}.

Definition heap (p : nat) : User (UUID := nat) (Time := nat) :=
  match p with
  | 1 => person 1 "alice" "alice@example.com"
  | 2 => person 2 "bob" "bob@example.com"
  | 3 => person 3 "alice" "alice@example.org"
  | _ => person 0 "" ""
  end.

Definition free_lock : RWMutex := {| writer := false; readers := 0 |}.

Definition only_alice : InMemoryUserRepository (UUID := nat) (Ptr := nat) :=
  {| mu := free_lock; users := {[ 1 := 1 ]} |}.

Definition alice_and_bob
    : InMemoryUserRepository (UUID := nat) (Ptr := nat) :=
  {| mu := free_lock; users := {[ 1 := 1; 2 := 2 ]} |}.

End DemoRepo.

Import xmux.

(** * The handler adapter and the registration helper *)

(** Unfolds the state monad so that a computation becomes a term on the
    world. *)
Ltac run := unfold mbind, mret, M_bind, M_ret in *; cbn in *.

Section HandlerProperties.
Context {env : Env}.

Lemma HandlerFunc_Invoke_eq {Params Response : ty}
    (h : HandlerFunc Params Response) (ctx : Ctx) (bind : Bind) (w : W)
    (resp : denote Response) (err : error) (w1 : W) :
  h ctx bind w = (resp, err, w1) →
  HandlerFunc_Invoke h ctx bind w = (box resp, err, w1).
Proof. intros Hh. unfold HandlerFunc_Invoke. run. by rewrite Hh. Qed.

Lemma Register_func_fail {Params Response : ty}
    (fn : Ctx → denote Params → M (denote Response * error))
    (ctx : Ctx) (bind : Bind) (w : W)
    (params : denote Params) (e : Err) (w1 : W) :
  bind Params (zero Params) w = (params, Some e, w1) →
  Register_func fn ctx bind w = (zero Response, Some e, w1).
Proof. intros Hb. unfold Register_func. run. by rewrite Hb. Qed.

Lemma Register_func_ok {Params Response : ty}
    (fn : Ctx → denote Params → M (denote Response * error))
    (ctx : Ctx) (bind : Bind) (w : W)
    (params : denote Params) (w1 : W) :
  bind Params (zero Params) w = (params, None, w1) →
  Register_func fn ctx bind w = fn ctx params w1.
Proof. intros Hb. unfold Register_func. run. by rewrite Hb. Qed.

Lemma call_n_pure {A : Type} (m : M A) (a : A) (n : nat) :
  (∀ w, m w = (a, w)) → ∀ w, call_n n m w = (replicate n a, w).
Proof.
  intros Hm. induction n as [|n IH]; intros w; [done|].
  cbn [call_n replicate]. run. by rewrite Hm, IH.
Qed.

(** C1. The handler that [Register] hands to the router, on [Invoke]:
    the resolver is called on a slot holding the zero value of the parameter
    type; if it reports an error, [Invoke] returns exactly that error and the
    world is the one the resolver left, whatever the business function is
    (it is not called); if it succeeds, [Invoke] returns the result, the
    error and the world of the business function applied to the resolved
    parameter, the result only packed as [any]. *)
Theorem Register_handler_Invoke {Params Response : ty}
    (router : Router) (method path : string)
    (fn : Ctx → denote Params → M (denote Response * error))
    (options : list (gmap string string))
    (ctx : Ctx) (bind : Bind) (w : W)
    (params : denote Params) (err : error) (w1 : W) :
  bind Params (zero Params) w = (params, err, w1) →
  let h : Handler := HandlerFunc_Handler (Register_func fn) in
    Register router method path fn options
      = Router_Register router method path h options
    ∧ (∀ e : Err, err = Some e →
         Handler_Invoke h ctx bind w = (box (zero Response), Some e, w1)
         ∧ ∀ fn' : Ctx → denote Params → M (denote Response * error),
             Handler_Invoke (HandlerFunc_Handler (Register_func fn')) ctx bind w
             = Handler_Invoke h ctx bind w)
    ∧ (err = None →
         ∀ (resp : denote Response) (err' : error) (w2 : W),
           fn ctx params w1 = (resp, err', w2) →
           Handler_Invoke h ctx bind w = (box resp, err', w2)).
Proof.
  intros Hb h. subst h. split; [reflexivity|]. split.
  - intros e ->. cbn [Handler_Invoke HandlerFunc_Handler].
    split; [|intros fn'];
      repeat erewrite HandlerFunc_Invoke_eq
        by (eapply Register_func_fail; exact Hb); reflexivity.
  - intros -> resp err' w2 Hfn. cbn [Handler_Invoke HandlerFunc_Handler].
    apply HandlerFunc_Invoke_eq.
    by rewrite (Register_func_ok fn ctx bind w params w1 Hb).
Qed.

(** C6. [Register] is one call of the router's [Register] with the method,
    the path, the adapter built from the typed function and the options, in
    that order and as given; it returns nothing but the world of that call.
    Hence any counter that every call of the router's [Register] advances by
    one is advanced by exactly one. *)
Theorem Register_calls_router_once {Params Response : ty}
    (router : Router) (method path : string)
    (fn : Ctx → denote Params → M (denote Response * error))
    (options : list (gmap string string)) (w : W) :
  Register router method path fn options w
    = (tt, snd (Router_Register router method path
                  (HandlerFunc_Handler (Register_func fn)) options w))
  ∧ ∀ count : W → nat,
      (∀ m p h o w', count (snd (Router_Register router m p h o w'))
                     = S (count w')) →
      count (snd (Register router method path fn options w)) = S (count w).
Proof.
  split.
  - unfold Register.
    by destruct (Router_Register router method path _ options w) as [[] w'].
  - intros count Hcount. unfold Register. apply Hcount.
Qed.

(** C7. [Params()] and [Response()] of a [HandlerFunc] return the zero value
    of the declared type and leave the world as it was, and so do any number
    of calls in a row. *)
Theorem HandlerFunc_Params_Response_zero {Params Response : ty}
    (h : HandlerFunc Params Response) (n : nat) (w : W) :
  Handler_Params (HandlerFunc_Handler h) w = (box (zero Params), w)
  ∧ Handler_Response (HandlerFunc_Handler h) w = (box (zero Response), w)
  ∧ call_n n (Handler_Params (HandlerFunc_Handler h)) w
      = (replicate n (box (zero Params)), w)
  ∧ call_n n (Handler_Response (HandlerFunc_Handler h)) w
      = (replicate n (box (zero Response)), w).
Proof.
  split; [reflexivity|]. split; [reflexivity|].
  split; apply call_n_pure; reflexivity.
Qed.

(** C10. When the resolver reports an error, the value the adapter returns
    with it is the zero value of the response type, both from the typed
    function and, packed, from [Invoke]; it is the value [Response()]
    reports, whatever the business function would have produced. *)
Theorem Register_handler_error_response_zero {Params Response : ty}
    (fn : Ctx → denote Params → M (denote Response * error))
    (ctx : Ctx) (bind : Bind) (w : W)
    (params : denote Params) (e : Err) (w1 : W) :
  bind Params (zero Params) w = (params, Some e, w1) →
  Register_func fn ctx bind w = (zero Response, Some e, w1)
  ∧ Handler_Invoke (HandlerFunc_Handler (Register_func fn)) ctx bind w
      = (box (zero Response), Some e, w1)
  ∧ fst (fst (Handler_Invoke (HandlerFunc_Handler (Register_func fn))
                ctx bind w))
      = fst (Handler_Response (HandlerFunc_Handler (Register_func fn)) w1).
Proof.
  intros Hb.
  pose proof (Register_func_fail fn ctx bind w params e w1 Hb) as Hf.
  split; [exact Hf|].
  cbn [Handler_Invoke Handler_Response HandlerFunc_Handler].
  rewrite (HandlerFunc_Invoke_eq _ _ _ _ _ _ _ Hf). by split.
Qed.

End HandlerProperties.

(** * The options decorator and [mergeOptions] *)

Section MergeOptions.
Import adapter.

Implicit Types (result opts : gmap string string).
Implicit Types (options : list (gmap string string)).

(** One pass of the inner loop: every entry of [opts] is written over
    [result]. *)
Lemma merge_one_union result opts :
  map_fold (λ (k v : string) result, <[k := v]> result) result opts
  = opts ∪ result.
Proof.
  apply (map_fold_weak_ind (λ r m, r = m ∪ result)).
  - by rewrite (left_id_L ∅ (∪)).
  - intros k v m r _ ->. by rewrite insert_union_l.
Qed.

Lemma merge_from result options :
  foldl (λ result opts,
           map_fold (λ (k v : string) result, <[k := v]> result) result opts)
        result options
  = mergeOptions options ∪ result.
Proof.
  unfold mergeOptions. revert result.
  induction options as [|opts options IH]; intros result; cbn [foldl].
  - by rewrite (left_id_L ∅ (∪)).
  - rewrite IH, (IH (map_fold _ ∅ opts)), !merge_one_union.
    by rewrite (right_id_L ∅ (∪)), (assoc_L (∪)).
Qed.

Lemma mergeOptions_app options1 options2 :
  mergeOptions (options1 ++ options2)
  = mergeOptions options2 ∪ mergeOptions options1.
Proof.
  unfold mergeOptions at 1. rewrite foldl_app.
  fold (mergeOptions options1). apply merge_from.
Qed.

End MergeOptions.

Section GroupProperties.
Context {env : Env}.


(** C5. [Bind] of a group built by [DefineGroup]: the resolver is called on
    a slot holding the zero value of the dependency type; if it reports an
    error, [Bind] returns that error and the world is the one the resolver
    left, whatever the router and the registration function are; if it
    succeeds, the registration function runs once, on the given router
    wrapped with the group's options and on the resolved dependency, and
    [Bind] returns no error. *)
Theorem DefineGroup_Bind {Handler_ : ty}
    (registerFn : Router → denote Handler_ → M unit)
    (opts : list (gmap string string))
    (router_ : Router) (bind : Bind) (w : W)
    (handler : denote Handler_) (err : error) (w1 : W) :
  bind Handler_ (zero Handler_) w = (handler, err, w1) →
  (∀ e : Err, err = Some e →
     ∀ (registerFn' : Router → denote Handler_ → M unit) (router' : Router),
       Binder_Bind (DefineGroup registerFn' opts) router' bind w
       = (Some e, w1))
  ∧ (err = None →
       Binder_Bind (DefineGroup registerFn opts) router_ bind w
       = (None,
          snd (registerFn
                 (optionsRouter_Router
                    {| router := router_; options := opts |})
                 handler w1))).
Proof.
  intros Hb. split.
  - intros e -> registerFn' router'.
    unfold DefineGroup, RouterGroup_Binder, RouterGroup_Bind. run.
    by rewrite Hb.
  - intros ->.
    unfold DefineGroup, RouterGroup_Binder, RouterGroup_Bind. run.
    rewrite Hb. by destruct (registerFn _ handler w1).
Qed.

End GroupProperties.

(** * The group registry *)

Section GroupsProperties.
Context {env : Env}.

Implicit Types (g : Groups) (gs pre post : list Binder) (b : Binder).
Implicit Types (w : W) (err : error).

Lemma Groups_Bind_range_cons b gs (router_ : Router) (bind : Bind) w :
  Groups_Bind_range (b :: gs) router_ bind w
  = let '(err, w1) := Binder_Bind b router_ bind w in
    match err with
    | Some _ => (err, w1)
    | None => Groups_Bind_range gs router_ bind w1
    end.
Proof.
  cbn [Groups_Bind_range]. run.
  by destruct (Binder_Bind b router_ bind w) as [[e|] w1].
Qed.

Lemma Groups_Bind_range_bound pre gs (router_ : Router) (bind : Bind) w w1 :
  bound_in_order router_ bind pre w w1 →
  Groups_Bind_range (pre ++ gs) router_ bind w
  = Groups_Bind_range gs router_ bind w1.
Proof.
  induction 1 as [w|b rest w w1 w2 Hb _ IH]; [done|].
  cbn [app]. by rewrite Groups_Bind_range_cons, Hb.
Qed.

Lemma Groups_Bind_range_stop b gs (router_ : Router) (bind : Bind) w
    (e : Err) w1 :
  Binder_Bind b router_ bind w = (Some e, w1) →
  Groups_Bind_range (b :: gs) router_ bind w = (Some e, w1).
Proof. intros Hb. by rewrite Groups_Bind_range_cons, Hb. Qed.

(** The loop ends in one of two ways: every group was bound, or the groups
    before some group were bound and that group failed. *)
Lemma Groups_Bind_range_cases gs (router_ : Router) (bind : Bind) w :
  ∃ err w', Groups_Bind_range gs router_ bind w = (err, w')
    ∧ match err with
      | None => bound_in_order router_ bind gs w w'
      | Some e => ∃ pre b post w1,
          gs = pre ++ b :: post
          ∧ bound_in_order router_ bind pre w w1
          ∧ Binder_Bind b router_ bind w1 = (Some e, w')
      end.
Proof.
  revert w. induction gs as [|b gs IH]; intros w.
  - exists None, w. split; [done|constructor].
  - rewrite Groups_Bind_range_cons.
    destruct (Binder_Bind b router_ bind w) as [[e|] w1] eqn:Hb.
    + exists (Some e), w1. split; [done|].
      exists [], b, gs, w. split; [done|]. split; [constructor|done].
    + destruct (IH w1) as (err & w' & Hr & Hcase).
      exists err, w'. split; [done|]. destruct err as [e|].
      * destruct Hcase as (pre & b' & post & w2 & -> & Hpre & Hb').
        exists (b :: pre), b', post, w2. split; [done|].
        split; [by econstructor|done].
      * by econstructor.
Qed.

(** On a free registry [Bind] returns: it runs the loop over the stored
    sequence and hands the registry back as it found it. *)
Lemma Groups_Bind_free g (router_ : Router) (bind : Bind) w :
  held (mu g) = false →
  Groups_Bind g router_ bind w
  = Some (fst (Groups_Bind_range (groups g) router_ bind w), g,
          snd (Groups_Bind_range (groups g) router_ bind w)).
Proof.
  destruct g as [[h] gs]. cbn. intros ->.
  unfold Groups_Bind, Mutex_Lock, Mutex_Unlock. cbn.
  by destruct (Groups_Bind_range gs router_ bind w).
Qed.

Lemma Groups_Register_free g gs :
  held (mu g) = false →
  Groups_Register g gs = Some {| mu := mu g; groups := groups g ++ gs |}.
Proof. destruct g as [[h] gs0]. cbn. by intros ->. Qed.

(** C2. [Groups.Bind] binds the groups in the stored order. If the groups
    before some group are bound and that group's [Bind] reports an error,
    [Groups.Bind] returns that error with the world as the failing group left
    it: what the earlier groups did to it stays, and the groups after the
    failing one play no part (the registry cut after the failing group gives
    the same error and world). If every group is bound, [Groups.Bind] returns
    no error. *)
Theorem Groups_Bind_fail_fast g (router_ : Router) (bind : Bind) w :
  held (mu g) = false →
  (∀ pre b post (e : Err) w1 w2,
     groups g = pre ++ b :: post →
     bound_in_order router_ bind pre w w1 →
     Binder_Bind b router_ bind w1 = (Some e, w2) →
     Groups_Bind g router_ bind w = Some (Some e, g, w2)
     ∧ Groups_Bind {| mu := mu g; groups := pre ++ [b] |} router_ bind w
       = Some (Some e, {| mu := mu g; groups := pre ++ [b] |}, w2))
  ∧ (∀ w1,
       bound_in_order router_ bind (groups g) w w1 →
       Groups_Bind g router_ bind w = Some (None, g, w1)).
Proof.
  intros Hfree. split.
  - intros pre b post e w1 w2 Hgs Hpre Hb.
    rewrite !Groups_Bind_free by done. cbn [groups]. rewrite Hgs.
    rewrite !(Groups_Bind_range_bound pre _ router_ bind w w1 Hpre).
    by rewrite !(Groups_Bind_range_stop b _ router_ bind w1 e w2 Hb).
  - intros w1 Hall. rewrite Groups_Bind_free by done.
    rewrite <- (app_nil_r (groups g)).
    by rewrite (Groups_Bind_range_bound _ [] router_ bind w w1 Hall).
Qed.

(** C4. [Register] appends: after [Register(xs...)] and [Register(ys...)] the
    stored sequence is the old one followed by [xs] and then [ys], and
    [Bind] runs its loop over exactly that sequence. From a new registry,
    [Register(A, B)], [Register(C)] and [Bind] call [A.Bind] on the initial
    world, [B.Bind] on the world [A] left and [C.Bind] on the world [B]
    left, stopping at the first error. *)
Theorem Groups_insertion_order g0 (xs ys : list Binder) (A B C : Binder)
    (router_ : Router) (bind : Bind) w :
  held (mu g0) = false →
  (∃ g2,
     (g1 ← Groups_Register g0 xs; Groups_Register g1 ys) = Some g2
     ∧ groups g2 = groups g0 ++ xs ++ ys
     ∧ Groups_Bind g2 router_ bind w
       = Some (fst (Groups_Bind_range (groups g0 ++ xs ++ ys) router_ bind w),
               g2,
               snd (Groups_Bind_range (groups g0 ++ xs ++ ys) router_ bind w)))
  ∧ (∃ g2,
       (g1 ← Groups_Register NewGroups [A; B]; Groups_Register g1 [C])
       = Some g2
       ∧ groups g2 = [A; B; C]
       ∧ Groups_Bind g2 router_ bind w
         = Some
             (let '(errA, wA) := Binder_Bind A router_ bind w in
              match errA with
              | Some _ => (errA, g2, wA)
              | None =>
                  let '(errB, wB) := Binder_Bind B router_ bind wA in
                  match errB with
                  | Some _ => (errB, g2, wB)
                  | None =>
                      let '(errC, wC) := Binder_Bind C router_ bind wB in
                      (errC, g2, wC)
                  end
              end)).
Proof.
  intros Hfree. split.
  - exists {| mu := mu g0; groups := groups g0 ++ xs ++ ys |}.
    rewrite Groups_Register_free by done. cbn [mbind option_bind].
    rewrite Groups_Register_free by done. cbn [mu groups].
    rewrite <- (assoc_L (++)). split; [done|]. split; [done|].
    by rewrite Groups_Bind_free.
  - exists {| mu := {| held := false |}; groups := [A; B; C] |}.
    split; [done|]. split; [done|].
    rewrite Groups_Bind_free by done. cbn [groups].
    rewrite !Groups_Bind_range_cons.
    destruct (Binder_Bind A router_ bind w) as [[eA|] wA]; [done|].
    rewrite !Groups_Bind_range_cons.
    destruct (Binder_Bind B router_ bind wA) as [[eB|] wB]; [done|].
    rewrite !Groups_Bind_range_cons.
    by destruct (Binder_Bind C router_ bind wB) as [[eC|] wC].
Qed.

(** C8. [Groups.Bind] on a free registry returns and hands the registry back
    with the same stored sequence, free again; a second [Bind] on the
    registry it handed back therefore runs the loop over the whole sequence
    again, from the first group, on the world the first pass left. *)
Theorem Groups_Bind_again g (router_ router' : Router) (bind bind' : Bind) w :
  held (mu g) = false →
  ∃ err g' w1,
    Groups_Bind g router_ bind w = Some (err, g', w1)
    ∧ g' = g
    ∧ (err, w1) = Groups_Bind_range (groups g) router_ bind w
    ∧ ∃ err' w2,
        Groups_Bind g' router' bind' w1 = Some (err', g, w2)
        ∧ (err', w2) = Groups_Bind_range (groups g) router' bind' w1
        ∧ (∀ w3, bound_in_order router' bind' (groups g) w1 w3 →
                 err' = None ∧ w2 = w3).
Proof.
  intros Hfree.
  destruct (Groups_Bind_range (groups g) router_ bind w) as [err w1] eqn:H1.
  exists err, g, w1. rewrite Groups_Bind_free, H1 by done.
  split; [done|]. split; [done|]. split; [done|].
  destruct (Groups_Bind_range (groups g) router' bind' w1) as [err' w2] eqn:H2.
  exists err', w2. rewrite Groups_Bind_free, H2 by done.
  split; [done|]. split; [done|].
  intros w3 Hall. rewrite <- (app_nil_r (groups g)) in H2.
  rewrite (Groups_Bind_range_bound _ [] router' bind' w1 w3 Hall) in H2.
  cbn in H2. by inversion H2.
Qed.

(** Single-group [Register] calls made one after the other lose nothing:
    the registry ends with the old sequence followed by the new groups in
    call order, so its length grows by the number of calls. *)
Lemma Groups_Register_each_free g gs :
  held (mu g) = false →
  Groups_Register_each g gs
  = Some {| mu := mu g; groups := groups g ++ gs |}.
Proof.
  revert g. induction gs as [|b gs IH]; intros g Hfree.
  - cbn. rewrite app_nil_r. by destruct g.
  - cbn [Groups_Register_each]. rewrite Groups_Register_free by done.
    cbn [mbind option_bind]. rewrite IH by done. cbn [mu groups].
    by rewrite <- (assoc_L (++)).
Qed.

End GroupsProperties.

(** * Concurrent callers of [Groups.Register] *)

Section ConcurrentRegister.
Context {env : Env}.

Implicit Types (g : Groups) (c : Register_call) (s : concurrent).
Implicit Types (l : list Register_call) (k i j : nat).

Lemma insert_Permutation l k c c' :
  l !! k = Some c → <[k := c']> l ≡ₚ c' :: delete k l.
Proof.
  intros Hk. apply lookup_lt_Some in Hk as Hlt.
  rewrite insert_take_drop, delete_take_drop by done.
  by rewrite Permutation_middle.
Qed.

Lemma stored_at l k c :
  l !! k = Some c →
  mjoin (call_groups <$> filter (λ c, has_stored c = true) l)
  ≡ₚ (if has_stored c then call_groups c else [])
     ++ mjoin (call_groups <$> filter (λ c, has_stored c = true) (delete k l)).
Proof.
  intros Hk. rewrite (delete_Permutation l k c Hk) at 1.
  rewrite filter_cons. destruct (has_stored c) eqn:Hc.
  - rewrite decide_True by done. done.
  - rewrite decide_False by done. done.
Qed.

Lemma stored_insert l k c c' :
  l !! k = Some c →
  mjoin (call_groups <$> filter (λ c, has_stored c = true) (<[k := c']> l))
  ≡ₚ (if has_stored c' then call_groups c' else [])
     ++ mjoin (call_groups <$> filter (λ c, has_stored c = true) (delete k l)).
Proof.
  intros Hk. rewrite (insert_Permutation l k c c' Hk).
  rewrite filter_cons. destruct (has_stored c') eqn:Hc.
  - rewrite decide_True by done. done.
  - rewrite decide_False by done. done.
Qed.

Lemma left_insert l k c c' :
  l !! k = Some c →
  sum_list (statements_left <$> <[k := c']> l) + statements_left c
  = sum_list (statements_left <$> l) + statements_left c'.
Proof.
  revert k. induction l as [|c0 l IH]; intros [|k] Hk; simplify_eq/=.
  - lia.
  - specialize (IH k Hk). lia.
Qed.

Lemma Register_step_left g c g' c' :
  Register_step g c = Some (g', c') →
  statements_left c = S (statements_left c')
  ∧ call_groups c' = call_groups c.
Proof.
  unfold Register_step. destruct c as [gs pc]. cbn.
  destruct pc; cbn; unfold Mutex_Lock, Mutex_Unlock;
    try destruct (held (mu g)); cbn; intros Heq; by simplify_eq.
Qed.

Lemma schedule_step_arguments k s :
  call_groups <$> calls (schedule_step k s) = call_groups <$> calls s.
Proof.
  unfold schedule_step. destruct (calls s !! k) as [c|] eqn:Hk; [|done].
  destruct (Register_step (shared s) c) as [[g' c']|] eqn:Hstep; [|done].
  apply Register_step_left in Hstep as [_ Hargs]. cbn.
  rewrite list_fmap_insert, Hargs. apply list_insert_id.
  by rewrite list_lookup_fmap, Hk.
Qed.

Lemma Register_invariant_spawn g0 (arguments : list (list Binder)) :
  held (mu g0) = false → Register_invariant g0 (spawn g0 arguments).
Proof.
  intros Hfree. split.
  - exists []. split; [by rewrite app_nil_r|]. unfold spawn. cbn [calls].
    induction arguments as [|a arguments IH]; [done|].
    rewrite fmap_cons, filter_cons.
    rewrite decide_False by done. exact IH.
  - left. split; [done|]. intros i c. cbn. rewrite list_lookup_fmap.
    destruct (arguments !! i); intros Heq; by simplify_eq/=.
Qed.

Lemma Register_invariant_step g0 k s :
  Register_invariant g0 s → Register_invariant g0 (schedule_step k s).
Proof.
  intros [(appended & Hgroups & Happended) Hlock].
  unfold schedule_step. destruct (calls s !! k) as [c|] eqn:Hk; [|by split; eauto].
  destruct (Register_step (shared s) c) as [[g' c']|] eqn:Hstep;
    [|by split; eauto].
  pose proof (stored_at _ _ _ Hk) as Hold.
  pose proof (stored_insert _ _ _ c' Hk) as Hnew.
  assert (Hothers : ∀ j c0, j ≠ k → <[k := c']> (calls s) !! j = Some c0 →
                      calls s !! j = Some c0).
  { intros j c0 Hj. by rewrite list_lookup_insert_ne. }
  assert (Hmine : <[k := c']> (calls s) !! k = Some c').
  { apply list_lookup_insert_eq. by eapply lookup_lt_Some. }
  destruct c as [gs pc]. unfold Register_step in Hstep. cbn in Hstep.
  destruct pc as [| |old| |]; cbn in *.
  - (* Lock *)
    unfold Mutex_Lock in Hstep. destruct (held (mu (shared s))) eqn:Hheld;
      [done|]. cbn in Hstep. simplify_eq. cbn in *.
    destruct Hlock as [[_ Hidle]|[? _]]; [|done].
    split.
    + exists appended. split; [done|]. by rewrite Hnew, <- Hold.
    + right. split; [done|]. exists k, (moved_to {| call_groups := gs; call_pc := at_Lock |} at_load).
      split; [done|]. split; [done|]. split; [done|].
      intros j c0 Hj Hc0. eapply Hidle, Hothers; done.
  - (* read *)
    simplify_eq. cbn in *.
    destruct Hlock as [[_ Hidle]|(Hheld & i & ci & Hi & Hin & Hread & Hrest)].
    { by specialize (Hidle _ _ Hk). }
    assert (k = i) as <-.
    { destruct (decide (k = i)); [done|]. by specialize (Hrest k _ ltac:(done) Hk). }
    split.
    + exists appended. split; [done|]. by rewrite Hnew, <- Hold.
    + right. split; [done|]. eexists k, _. split; [exact Hmine|].
      split; [done|]. split; [by intros ? [= <-]|].
      intros j c0 Hj Hc0. eapply Hrest, Hothers; done.
  - (* write *)
    simplify_eq. cbn in *.
    destruct Hlock as [[_ Hidle]|(Hheld & i & ci & Hi & Hin & Hread & Hrest)].
    { by specialize (Hidle _ _ Hk). }
    assert (k = i) as <-.
    { destruct (decide (k = i)); [done|]. by specialize (Hrest k _ ltac:(done) Hk). }
    simplify_eq. rewrite (Hread old eq_refl), Hgroups.
    split.
    + exists (appended ++ gs). split; [by rewrite (assoc_L (++))|].
      rewrite Hnew. cbn. rewrite Happended, Hold. cbn.
      apply Permutation_app_comm.
    + right. split; [done|]. eexists k, _. split; [exact Hmine|].
      split; [done|]. split; [done|].
      intros j c0 Hj Hc0. eapply Hrest, Hothers; done.
  - (* Unlock *)
    destruct Hlock as [[_ Hidle]|(Hheld & i & ci & Hi & Hin & Hread & Hrest)].
    { by specialize (Hidle _ _ Hk). }
    assert (k = i) as <-.
    { destruct (decide (k = i)); [done|]. by specialize (Hrest k _ ltac:(done) Hk). }
    unfold Mutex_Unlock in Hstep. rewrite Hheld in Hstep. cbn in Hstep.
    simplify_eq. cbn in *.
    split.
    + exists appended. split; [done|]. by rewrite Hnew, <- Hold.
    + left. split; [done|]. intros j c0 Hc0. cbn in Hc0.
      destruct (decide (j = k)) as [->|Hj];
        [rewrite Hmine in Hc0; by simplify_eq|].
      eapply Hrest, Hothers; done.
  - done.
Qed.

Lemma Register_invariant_run g0 (schedule : list nat) s :
  Register_invariant g0 s → Register_invariant g0 (run_schedule schedule s).
Proof.
  revert s. induction schedule as [|k schedule IH]; intros s Hinv; [done|].
  apply IH, Register_invariant_step, Hinv.
Qed.

Lemma total_left_step k s :
  total_left (schedule_step k s) ≤ total_left s.
Proof.
  unfold schedule_step, total_left.
  destruct (calls s !! k) as [c|] eqn:Hk; [|done].
  destruct (Register_step (shared s) c) as [[g' c']|] eqn:Hstep; [|done].
  apply Register_step_left in Hstep as [Hleft _]. cbn.
  pose proof (left_insert _ _ _ c' Hk). lia.
Qed.

Lemma total_left_run (schedule : list nat) s :
  total_left (run_schedule schedule s) ≤ total_left s.
Proof.
  revert s. induction schedule as [|k schedule IH]; intros s; [done|].
  cbn. etrans; [apply IH|apply total_left_step].
Qed.

Lemma total_left_spawn g (arguments : list (list Binder)) :
  total_left (spawn g arguments) = 4 * length arguments.
Proof.
  unfold total_left, spawn. cbn [calls].
  induction arguments as [|a arguments IH]; [done|].
  rewrite !fmap_cons. cbn. lia.
Qed.

(** Some call can move as long as one has not returned. *)
Lemma Register_progress g0 s :
  Register_invariant g0 s →
  ¬ all_returned s →
  ∃ k, total_left (schedule_step k s) < total_left s.
Proof.
  intros [_ Hlock] Hnot.
  assert (Hmoves : ∀ k c g' c',
            calls s !! k = Some c →
            Register_step (shared s) c = Some (g', c') →
            total_left (schedule_step k s) < total_left s).
  { intros k c g' c' Hk Hstep. unfold schedule_step, total_left.
    rewrite Hk, Hstep. cbn.
    apply Register_step_left in Hstep as [Hleft _].
    pose proof (left_insert _ _ _ c' Hk). lia. }
  destruct Hlock as [[Hfree Hidle]|(Hheld & i & c & Hi & Hin & _)].
  - apply not_Forall_Exists in Hnot; [|apply _].
    apply Exists_exists in Hnot as (c & Hc & Hpc).
    apply list_elem_of_lookup in Hc as [k Hk]. cbn in Hpc.
    specialize (Hidle _ _ Hk).
    exists k. destruct c as [gs pc].
    destruct pc; try done.
    eapply (Hmoves k _ _ _ Hk).
    unfold Register_step, Mutex_Lock. cbn. by rewrite Hfree.
  - exists i. destruct c as [gs pc].
    destruct pc; try done; eapply (Hmoves i _ _ _ Hi);
      unfold Register_step, Mutex_Unlock; cbn; rewrite ?Hheld; done.
Qed.

(** From every state the calls can reach, some schedule lets all of them
    return. *)
Lemma Register_can_finish g0 (n : nat) s :
  Register_invariant g0 s →
  total_left s ≤ n →
  ∃ rest, all_returned (run_schedule rest s).
Proof.
  revert s. induction n as [|n IH]; intros s Hinv Hn.
  - destruct (decide (all_returned s)) as [Hall|Hnot]; [by exists []|].
    destruct (Register_progress g0 s Hinv Hnot) as [k Hk]. lia.
  - destruct (decide (all_returned s)) as [Hall|Hnot]; [by exists []|].
    destruct (Register_progress g0 s Hinv Hnot) as [k Hk].
    destruct (IH (schedule_step k s)) as [rest Hrest];
      [by apply Register_invariant_step|lia|].
    by exists (k :: rest).
Qed.

Lemma run_schedule_arguments (schedule : list nat) s :
  call_groups <$> calls (run_schedule schedule s) = call_groups <$> calls s.
Proof.
  revert s. induction schedule as [|k schedule IH]; intros s; [done|].
  change (run_schedule (k :: schedule) s)
    with (run_schedule schedule (schedule_step k s)).
  by rewrite IH, schedule_step_arguments.
Qed.

Lemma at_most_one_inside g0 s i j ci cj :
  Register_invariant g0 s →
  calls s !! i = Some ci → calls s !! j = Some cj →
  in_critical_section ci = true → in_critical_section cj = true →
  i = j.
Proof.
  intros [_ [[_ Hidle]|(_ & k & c & _ & _ & _ & Hrest)]] Hi Hj Hci Hcj.
  - specialize (Hidle _ _ Hi). congruence.
  - destruct (decide (i = k)) as [->|Hik];
      [|specialize (Hrest _ _ Hik Hi); congruence].
    destruct (decide (j = k)) as [->|Hjk]; [done|].
    specialize (Hrest _ _ Hjk Hj). congruence.
Qed.

Lemma inside_holds_lock g0 s i ci :
  Register_invariant g0 s →
  calls s !! i = Some ci → in_critical_section ci = true →
  held (mu (shared s)) = true.
Proof.
  intros [_ [[_ Hidle]|(Hheld & _)]] Hi Hci; [|done].
  specialize (Hidle _ _ Hi). congruence.
Qed.

Lemma returned_stored l :
  Forall (λ c, has_returned c = true) l →
  filter (λ c, has_stored c = true) l = l.
Proof.
  induction 1 as [|c l Hc _ IH]; [done|].
  rewrite filter_cons, IH. apply decide_True.
  destruct c as [gs pc]. by destruct pc.
Qed.

Lemma all_returned_result g0 s :
  Register_invariant g0 s →
  all_returned s →
  held (mu (shared s)) = false
  ∧ ∃ appended,
      groups (shared s) = groups g0 ++ appended
      ∧ appended ≡ₚ mjoin (call_groups <$> calls s).
Proof.
  intros [(appended & Hgroups & Happended) Hlock] Hall.
  unfold all_returned in Hall. split.
  - destruct Hlock as [[Hfree _]|(_ & i & c & Hi & Hin & _)]; [done|].
    rewrite Forall_lookup in Hall. specialize (Hall _ _ Hi).
    destruct c as [gs pc]. by destruct pc.
  - exists appended. split; [done|]. rewrite Happended.
    by rewrite (returned_stored _ Hall).
Qed.

Lemma spawn_arguments g (arguments : list (list Binder)) :
  call_groups <$> calls (spawn g arguments) = arguments.
Proof.
  unfold spawn. cbn [calls].
  induction arguments as [|a arguments IH]; [done|].
  rewrite !fmap_cons. cbn [call_groups]. f_equal. exact IH.
Qed.

Lemma mjoin_singletons (bs : list Binder) :
  mjoin ((λ b, [b]) <$> bs) = bs.
Proof. induction bs as [|b bs IH]; [done|]. cbn. f_equal. exact IH. Qed.

(** A call that runs alone does what [Groups.Register] does. *)
Lemma Register_alone g (xs : list Binder) :
  held (mu g) = false →
  Some (shared (run_schedule [0; 0; 0; 0] (spawn g [xs])))
  = Groups_Register g xs.
Proof.
  destruct g as [[h] gs]. cbn. intros ->. reflexivity.
Qed.

(** C9. [N] goroutines each call [Register] with one group on a new
    registry, their statements interleaved by any schedule. At every moment
    at most one call is between [Lock] and [Unlock], where [g.groups] is
    read and written, and while one is the lock is held and [Bind] does not
    start. As long as a call has not returned some call can move, and at
    most [4 * N] statements are run in all, so the calls cannot get stuck.
    Once all calls have returned, the lock is free and the registry holds
    the [N] groups, each once, in some order; [Bind] then runs its loop
    over exactly these [N] groups, and binds all of them when each
    succeeds. *)
Theorem concurrent_Register_then_Bind (bs : list Binder)
    (schedule : list nat) (router_ : Router) (bind : Bind) (w : W) :
  let s := run_schedule schedule (spawn NewGroups ((λ b, [b]) <$> bs)) in
  (∀ i j ci cj,
     calls s !! i = Some ci → calls s !! j = Some cj →
     in_critical_section ci = true → in_critical_section cj = true →
     i = j)
  ∧ (∀ i ci,
       calls s !! i = Some ci → in_critical_section ci = true →
       held (mu (shared s)) = true
       ∧ Groups_Bind (shared s) router_ bind w = None)
  ∧ (¬ all_returned s →
     ∃ k, total_left (schedule_step k s) < total_left s)
  ∧ total_left s ≤ 4 * length bs
  ∧ (∃ rest, all_returned (run_schedule rest s))
  ∧ (all_returned s →
     held (mu (shared s)) = false
     ∧ groups (shared s) ≡ₚ bs
     ∧ length (groups (shared s)) = length bs
     ∧ Groups_Bind (shared s) router_ bind w
       = Some (fst (Groups_Bind_range (groups (shared s)) router_ bind w),
               shared s,
               snd (Groups_Bind_range (groups (shared s)) router_ bind w))
     ∧ ∀ w', bound_in_order router_ bind (groups (shared s)) w w' →
             Groups_Bind (shared s) router_ bind w
             = Some (None, shared s, w')).
Proof.
  intros s.
  assert (Hinv : Register_invariant NewGroups s).
  { apply Register_invariant_run, Register_invariant_spawn. reflexivity. }
  assert (Hleft : total_left s ≤ 4 * length bs).
  { subst s. etrans; [apply total_left_run|].
    by rewrite total_left_spawn, length_fmap. }
  split; [intros i j ci cj; by apply (at_most_one_inside NewGroups)|].
  split.
  { intros i ci Hi Hci.
    pose proof (inside_holds_lock NewGroups s i ci Hinv Hi Hci) as Hheld.
    split; [done|]. unfold Groups_Bind, Mutex_Lock. by rewrite Hheld. }
  split; [by apply (Register_progress NewGroups)|].
  split; [done|].
  split; [by apply (Register_can_finish NewGroups (total_left s))|].
  intros Hall.
  destruct (all_returned_result NewGroups s Hinv Hall)
    as (Hfree & appended & Hgroups & Happended).
  cbn in Hgroups.
  assert (Hperm : groups (shared s) ≡ₚ bs).
  { rewrite Hgroups, Happended. subst s.
    by rewrite run_schedule_arguments, spawn_arguments, mjoin_singletons. }
  split; [done|]. split; [done|]. split; [by rewrite Hperm|].
  rewrite Groups_Bind_free by done. split; [done|].
  intros w' Hbound. rewrite <- (app_nil_r (groups (shared s))).
  by rewrite (Groups_Bind_range_bound _ [] router_ bind w w' Hbound).
Qed.

End ConcurrentRegister.

(** * The properties at work on the test doubles *)

Import Demo.

Lemma Register_handler_Invoke_witness :
  (resolve_none HelloParams (zero HelloParams) w0
     = ("garbage", Some "bad request", w0)
   ∧ Handler_Invoke hello_handler tt resolve_none w0
     = (box (t := HelloResponse) "", Some "bad request", w0)
   ∧ fn_calls (snd (Handler_Invoke hello_handler tt resolve_none w0)) = 0)
  ∧ (resolve_all HelloParams (zero HelloParams) w0 = ("gopher", None, w0)
     ∧ Handler_Invoke hello_handler tt resolve_all w0
       = (box (t := HelloResponse) "Hello, gopher", None, tick_fn w0)).
Proof.
  split.
  - pose proof (Register_handler_Invoke (env := demo_env) (Params := HelloParams) (Response := HelloResponse)
                  recorder "GET" "/hello" hello [] tt resolve_none w0
                  "garbage" (Some "bad request") w0 eq_refl)
      as (_ & Hfail & _).
    destruct (Hfail "bad request" eq_refl) as [Hinv _].
    split; [reflexivity|]. split; [exact Hinv|].
    unfold hello_handler. by rewrite Hinv.
  - pose proof (Register_handler_Invoke (env := demo_env) (Params := HelloParams) (Response := HelloResponse)
                  recorder "GET" "/hello" hello [] tt resolve_all w0
                  "gopher" None w0 eq_refl)
      as (_ & _ & Hok).
    split; [reflexivity|].
    exact (Hok eq_refl "Hello, gopher" None (tick_fn w0) eq_refl).
Defined.

Lemma Register_calls_router_once_witness :
  (∀ m p h o w',
     router_calls (snd (Router_Register tally m p h o w'))
     = S (router_calls w'))
  ∧ router_calls
      (snd (Register (env := demo_env)
              (Params := HelloParams) (Response := HelloResponse)
              tally "GET" "/hello" hello route_opts w0)) = 1.
Proof.
  split; [reflexivity|].
  destruct (Register_calls_router_once (env := demo_env)
              (Params := HelloParams) (Response := HelloResponse)
              tally "GET" "/hello" hello route_opts w0) as [_ Hcount].
  apply (Hcount router_calls). reflexivity.
Defined.

Lemma Register_handler_error_response_zero_witness :
  resolve_none HelloParams (zero HelloParams) w0
    = ("garbage", Some "bad request", w0)
  ∧ Handler_Invoke hello_handler tt resolve_none w0
    = (box (t := HelloResponse) "", Some "bad request", w0).
Proof.
  split; [reflexivity|].
  apply (Register_handler_error_response_zero (env := demo_env)
           (Params := HelloParams) (Response := HelloResponse)
           hello tt resolve_none w0 "garbage" "bad request" w0 eq_refl).
Defined.

Lemma DefineGroup_Bind_witness :
  (resolve_none IUser (zero IUser) w0 = (None, Some "no IUser", w0)
   ∧ Binder_Bind groupA recorder resolve_none w0 = (Some "no IUser", w0))
  ∧ (resolve_all IUser (zero IUser) w0 = (Some "UserService", None, w0)
     ∧ Binder_Bind groupA recorder resolve_all w0
       = (None,
          snd (registerA
                 (optionsRouter_Router
                    {| router := recorder; options := group_opts |})
                 (Some "UserService") w0))).
Proof.
  split.
  - split; [reflexivity|].
    destruct (DefineGroup_Bind (env := demo_env) (Handler_ := IUser)
                registerA group_opts recorder resolve_none w0
                None (Some "no IUser") w0 eq_refl) as [Hfail _].
    exact (Hfail "no IUser" eq_refl registerA recorder).
  - split; [reflexivity|].
    destruct (DefineGroup_Bind (env := demo_env) (Handler_ := IUser)
                registerA group_opts recorder resolve_all w0
                (Some "UserService") None w0 eq_refl) as [_ Hok].
    exact (Hok eq_refl).
Defined.

Lemma Groups_Bind_fail_fast_witness :
  (held (mu registryABC) = false
   ∧ groups registryABC = [groupA] ++ groupB :: [groupC]
   ∧ bound_in_order recorder resolve_user [groupA] w0 afterA
   ∧ Binder_Bind groupB recorder resolve_user afterA
     = (Some "no IOrder", afterA)
   ∧ Groups_Bind registryABC recorder resolve_user w0
     = Some (Some "no IOrder", registryABC, afterA))
  ∧ (held (mu registryAC) = false
     ∧ bound_in_order recorder resolve_user (groups registryAC) w0 afterAC
     ∧ Groups_Bind registryAC recorder resolve_user w0
       = Some (None, registryAC, afterAC)).
Proof.
  assert (HA : bound_in_order recorder resolve_user [groupA] w0 afterA).
  { eapply bound_cons; [reflexivity|apply bound_nil]. }
  assert (HAC : bound_in_order recorder resolve_user
                  (groups registryAC) w0 afterAC).
  { eapply bound_cons; [reflexivity|].
    eapply bound_cons; [reflexivity|apply bound_nil]. }
  split.
  - split; [reflexivity|]. split; [reflexivity|]. split; [exact HA|].
    split; [reflexivity|].
    destruct (Groups_Bind_fail_fast (env := demo_env)
                registryABC recorder resolve_user w0 eq_refl) as [Hfail _].
    exact (proj1 (Hfail [groupA] groupB [groupC] "no IOrder" afterA afterA
                    eq_refl HA eq_refl)).
  - split; [reflexivity|]. split; [exact HAC|].
    destruct (Groups_Bind_fail_fast (env := demo_env)
                registryAC recorder resolve_user w0 eq_refl) as [_ Hok].
    exact (Hok afterAC HAC).
Defined.

Lemma Groups_insertion_order_witness :
  held (mu (NewGroups (env := demo_env))) = false
  ∧ ∃ g2,
      (g1 ← Groups_Register NewGroups [groupA; groupB];
       Groups_Register g1 [groupC]) = Some g2
      ∧ groups g2 = [groupA; groupB; groupC].
Proof.
  split; [reflexivity|].
  destruct (Groups_insertion_order (env := demo_env) NewGroups
              [groupA; groupB] [groupC] groupA groupB groupC
              recorder resolve_all w0 eq_refl)
    as [_ (g2 & Hreg & Hgs & _)].
  exists g2. split; [exact Hreg|exact Hgs].
Defined.

Lemma Groups_Bind_again_witness :
  held (mu registryAC) = false
  ∧ ∃ err g' w1,
      Groups_Bind registryAC recorder resolve_user w0 = Some (err, g', w1)
      ∧ g' = registryAC
      ∧ ∃ err' w2,
          Groups_Bind g' recorder resolve_user w1
          = Some (err', registryAC, w2).
Proof.
  split; [reflexivity|].
  destruct (Groups_Bind_again (env := demo_env) registryAC
              recorder recorder resolve_user resolve_user w0 eq_refl)
    as (err & g' & w1 & H1 & Hg & _ & err' & w2 & H2 & _).
  exists err, g', w1. split; [exact H1|]. split; [exact Hg|].
  exists err', w2. exact H2.
Defined.

Lemma concurrent_Register_then_Bind_witness :
  let s := run_schedule [0; 1; 0; 1; 0; 0; 1; 1; 1; 1; 0]
             (spawn NewGroups [[groupA]; [groupC]]) in
  all_returned s
  ∧ bound_in_order recorder resolve_user (groups (shared s)) w0 afterAC
  ∧ held (mu (shared s)) = false
  ∧ length (groups (shared s)) = 2
  ∧ Groups_Bind (shared s) recorder resolve_user w0
    = Some (None, shared s, afterAC).
Proof.
  intros s.
  assert (Hall : all_returned s) by (repeat constructor).
  assert (Hbound : bound_in_order recorder resolve_user (groups (shared s))
                     w0 afterAC).
  { eapply bound_cons; [reflexivity|].
    eapply bound_cons; [reflexivity|apply bound_nil]. }
  destruct (concurrent_Register_then_Bind (env := demo_env)
              [groupA; groupC] [0; 1; 0; 1; 0; 0; 1; 1; 1; 1; 0]
              recorder resolve_user w0)
    as (_ & _ & _ & _ & _ & Hdone).
  destruct (Hdone Hall) as (Hfree & _ & Hlen & _ & Hbind).
  split; [exact Hall|]. split; [exact Hbound|]. split; [exact Hfree|].
  split; [exact Hlen|]. exact (Hbind afterAC Hbound).
Defined.

(** * The scenarios of the specification, evaluated *)

(** A failed resolver leaves the call counter of the business function at
    zero. *)
Example resolve_error_skips_fn :
  fn_calls (snd (Handler_Invoke hello_handler tt resolve_none w0)) = 0
  ∧ fn_calls (snd (Handler_Invoke hello_handler tt resolve_all w0)) = 1.
Proof. by vm_compute. Qed.

(** Group A registers two routes, group B's resolver fails: the error is
    returned, the router keeps A's two routes, B's and C's registration
    functions are not entered. *)
Example fail_fast_without_rollback :
  ∃ w, Groups_Bind registryABC recorder resolve_user w0
       = Some (Some "no IOrder", registryABC, w)
     ∧ map r_path (routes w) = ["/users"; "/users"]
     ∧ reg_calls w = 1.
Proof. eexists. split; [by vm_compute|]. by vm_compute. Qed.

(** The router receives group options followed by route options, and the
    merged map has the route-level value of ["x"]. *)
Example options_reach_router :
  map r_options (routes afterA)
  = [group_opts ++ route_opts; group_opts ++ []]
  ∧ map adapter.mergeOptions (map r_options (routes afterA))
    = [ {[ "x" := "1"; "y" := "2" ]}; {[ "x" := "0"; "y" := "2" ]} ].
Proof. by vm_compute. Qed.

(** [Register(A, B)], [Register(C)], [Bind]: the routes arrive in the order
    A, B, C. *)
Example routes_in_insertion_order :
  ∃ g2 w,
    (g1 ← Groups_Register NewGroups [groupA; groupB];
     Groups_Register g1 [groupC]) = Some g2
    ∧ Groups_Bind g2 recorder resolve_all w0 = Some (None, g2, w)
    ∧ map (λ r, (r_method r, r_path r)) (routes w)
      = [("GET", "/users"); ("POST", "/users");
         ("GET", "/orders"); ("DELETE", "/users")].
Proof.
  eexists. eexists. split; [by vm_compute|].
  split; [by vm_compute|]. by vm_compute.
Qed.

(** Binding twice registers every route twice, in the same order. *)
Example rebind_registers_again :
  ∃ w1 w2,
    Groups_Bind registryAC recorder resolve_all w0
    = Some (None, registryAC, w1)
    ∧ Groups_Bind registryAC recorder resolve_all w1
      = Some (None, registryAC, w2)
    ∧ map r_path (routes w2) = map r_path (routes w1 ++ routes w1)
    ∧ reg_calls w2 = 4.
Proof.
  eexists. eexists. split; [by vm_compute|].
  split; [by vm_compute|]. by vm_compute.
Qed.

(** The call that takes the lock first is the one whose group comes first:
    here the second caller wins the lock, and while it holds it the first
    caller's picks change nothing. *)
Example lock_order_is_append_order :
  let s := run_schedule [1; 0; 1; 0; 0; 1; 1; 0; 0; 0; 0]
             (spawn NewGroups [[groupA]; [groupC]]) in
  all_returned s ∧ groups (shared s) = [groupC; groupA].
Proof. split; [repeat constructor|reflexivity]. Qed.

(** Without the lock both callers read the empty sequence before either
    writes, and the group of the first is lost. *)
Example append_lost_without_lock :
  let s := run_schedule_without_lock [0; 0; 1; 1; 0; 1; 0; 1]
             (spawn NewGroups [[groupA]; [groupC]]) in
  all_returned s ∧ groups (shared s) = [groupC].
Proof. split; [repeat constructor|reflexivity]. Qed.

(** A registry whose lock is held lets neither [Register] nor [Bind]
    return. *)
Example held_registry_blocks :
  let g := {| mu := {| held := true |}; groups := [groupA] |} in
  Groups_Register g [groupB] = None
  ∧ Groups_Bind g recorder resolve_all w0 = None.
Proof. by vm_compute. Qed.

(** * The gin adapter: paths *)

Section NormalizePath.
Import adapter.

Lemma prefix_String (a b : Ascii.ascii) (p s : string) :
  String.prefix (String a p) (String b s)
  = if Ascii.ascii_dec a b then String.prefix p s else false.
Proof. reflexivity. Qed.

Lemma append_String (a : Ascii.ascii) (s t : string) :
  String a s +:+ t = String a (s +:+ t).
Proof. reflexivity. Qed.

Lemma HasPrefix_slash_append (path rest : string) :
  HasPrefix ("/" +:+ path) ("/" +:+ rest) = HasPrefix path rest.
Proof.
  unfold HasPrefix. rewrite !append_String, prefix_String.
  by destruct (Ascii.ascii_dec _ _).
Qed.

Lemma HasPrefix_append (prefix rest : string) :
  HasPrefix (prefix +:+ rest) prefix = true.
Proof.
  unfold HasPrefix. induction prefix as [|a prefix IH]; [by destruct rest|].
  rewrite append_String, prefix_String.
  by destruct (Ascii.ascii_dec a a).
Qed.

Lemma HasPrefix_api_slash (s : string) :
  HasPrefix s "/api/" = true → HasPrefix s "/" = true.
Proof.
  unfold HasPrefix. destruct s as [|a s]; [done|].
  rewrite !prefix_String. destruct (Ascii.ascii_dec _ a); [|done].
  intros _. by destruct s.
Qed.

Lemma normalizePath_under_api (config : RouterConfig) (path : string) :
  HasPrefix path "/api/" = true → normalizePath config path = path.
Proof.
  intros Hapi. unfold normalizePath.
  rewrite (HasPrefix_api_slash path Hapi). cbn [negb]. by rewrite Hapi.
Qed.

Lemma normalizePath_HasPrefix_api (config : RouterConfig) (path : string) :
  HasPrefix (normalizePath config path) "/api/" = true.
Proof.
  unfold normalizePath.
  destruct (HasPrefix path "/"); cbn [negb];
    match goal with
    | |- context [negb (HasPrefix ?p "/api/")] =>
        destruct (HasPrefix p "/api/") eqn:Hp; cbn [negb]
    end; try done; apply HasPrefix_append.
Qed.

(** X1. Whatever the path, [normalizePath] returns a path that begins with
    ["/api/"], and normalising it again, under any configuration, changes
    nothing. *)
Theorem normalizePath_idempotent (config config' : RouterConfig)
    (path : string) :
  HasPrefix (normalizePath config path) "/api/" = true
  ∧ normalizePath config' (normalizePath config path)
    = normalizePath config path.
Proof.
  split; [apply normalizePath_HasPrefix_api|].
  apply normalizePath_under_api, normalizePath_HasPrefix_api.
Qed.

(** X2. How [normalizePath] treats the forms of a path: one that begins
    with ["/api/"] is returned as it is, whatever version it names; another
    absolute path gets ["/api/"] and the configured version in front; a
    relative path that begins with ["api/"] gets the slash only and no
    version; any other relative path gets ["/api/"], the version and a
    slash. *)
Theorem normalizePath_cases (config : RouterConfig) (path : string) :
  (HasPrefix path "/api/" = true → normalizePath config path = path)
  ∧ (HasPrefix path "/" = true → HasPrefix path "/api/" = false →
       normalizePath config path = "/api/" +:+ APIVersion config +:+ path)
  ∧ (HasPrefix path "/" = false → HasPrefix path "api/" = true →
       normalizePath config path = "/" +:+ path)
  ∧ (HasPrefix path "/" = false → HasPrefix path "api/" = false →
       normalizePath config path
       = "/api/" +:+ APIVersion config +:+ "/" +:+ path).
Proof.
  split; [apply normalizePath_under_api|].
  split; [|split].
  - intros Hs Ha. unfold normalizePath. rewrite Hs. cbn [negb].
    by rewrite Ha.
  - intros Hs Ha. unfold normalizePath. rewrite Hs. cbn [negb].
    by rewrite (HasPrefix_slash_append path "api/"
                  : HasPrefix _ "/api/" = _), Ha.
  - intros Hs Ha. unfold normalizePath. rewrite Hs. cbn [negb].
    by rewrite (HasPrefix_slash_append path "api/"
                  : HasPrefix _ "/api/" = _), Ha.
Qed.

End NormalizePath.

(** * The gin adapter: binding and responses *)

Section GinProperties.
Import adapter.
Context {base : Base}.
#[local] Existing Instance gin_env | 0.
Context (Decode : Bind) (UUID : Type) (uuid_Parse : string → option UUID).

Implicit Types (r : GinRouter) (c : Context) (err : errval).
Implicit Types (options : gmap string string) (method : string).

Lemma handleError_calls r c err options :
  ∃ body : gmap string string,
    handleError r c (Some err) options
    = [ Header "X-API-Version" (APIVersion (config r));
        JSON (match errors_As err with Some _ => 400 | None => 500 end)
             (obj_map body) ]
    ∧ body !! "error"
      = Some (match errors_As err with
              | Some bindErr => Type_ bindErr
              | None => "internal_error"
              end)
    ∧ body !! "details"
      = (if DebugMode (config r) then Some (errval_Error err) else None).
Proof.
  unfold handleError. cbn [mbind option_bind].
  destruct (errors_As err) as [bindErr|], (DebugMode (config r));
    eexists; (split; [reflexivity|]); by simplify_map_eq.
Qed.

(** X3. The error response: the version header, then one [JSON] call whose
    status is 400 when a [*BindError] is on the [Unwrap] chain of the error
    and 500 otherwise; its ["error"] field is the type of that [*BindError]
    or ["internal_error"], and it has a ["details"] field, the text of the
    error, exactly in debug mode. *)
Theorem handleError_response r c err options :
  ∃ body : gmap string string,
    handleError r c (Some err) options
    = [ Header "X-API-Version" (APIVersion (config r));
        JSON (match errors_As err with Some _ => 400 | None => 500 end)
             (obj_map body) ]
    ∧ body !! "error"
      = Some (match errors_As err with
              | Some bindErr => Type_ bindErr
              | None => "internal_error"
              end)
    ∧ body !! "details"
      = (if DebugMode (config r) then Some (errval_Error err) else None).
Proof. apply handleError_calls. Qed.

(** X4. Outside debug mode the error response depends on the error only
    through the type and the message of the first [*BindError] on its
    chain: the text of any other error, and what a [*BindError] wraps, do
    not reach the client, and neither do the options. *)
Theorem handleError_hides_cause r c err err' options options' :
  DebugMode (config r) = false →
  Type_ <$> errors_As err = Type_ <$> errors_As err' →
  Message <$> errors_As err = Message <$> errors_As err' →
  handleError r c (Some err) options = handleError r c (Some err') options'.
Proof.
  intros Hdebug Htype Hmsg. unfold handleError. cbn [mbind option_bind].
  rewrite Hdebug.
  destruct (errors_As err) as [b|], (errors_As err') as [b'|];
    cbn in Htype, Hmsg; try done.
  congruence.
Qed.

(** X5. Every response starts with the version header and ends with the
    only [JSON] call; the status is 200 exactly when the handler returned no
    error, and then the body is the handler's result. The options, the
    ["format"] entry included, change nothing. *)
Theorem handleResponse_shape r c (result : any) (e : error) options :
  ∃ (hs : list Call) (code : Z) (obj : Obj),
    handleResponse r c result e options
    = Header "X-API-Version" (APIVersion (config r)) :: hs ++ [JSON code obj]
    ∧ Forall (λ call, ∃ k v, call = Header k v) hs
    ∧ (code = 200%Z ↔ e = None)
    ∧ (e = None → obj = obj_result result)
    ∧ ∀ options',
        handleResponse r c result e options'
        = handleResponse r c result e options.
Proof.
  destruct e as [err|].
  - destruct (handleError_calls r c err options) as (body & Hr & _).
    exists [], (match errors_As err with Some _ => 400 | None => 500 end)%Z,
      (obj_map body).
    cbn [handleResponse app]. split; [exact Hr|]. split; [constructor|].
    split; [by destruct (errors_As err)|]. split; [done|].
    intros options'. unfold handleError. reflexivity.
  - exists [Header "Content-Type" "application/json"], 200%Z,
      (obj_result result).
    cbn [handleResponse]. split; [by repeat case_match|].
    split; [repeat constructor; eauto|]. split; [done|]. split; [done|].
    intros options'. by repeat case_match.
Qed.

Lemma eqb_false (s1 s2 : string) : s1 ≠ s2 → String.eqb s1 s2 = false.
Proof. apply String.eqb_neq. Qed.

Lemma bind_skips_decoder r c method (t : ty) (ptr : denote t)
    (w : W) :
  (method ≠ "POST" ∧ method ≠ "PUT" ∧ method ≠ "PATCH")
  ∨ Request_Body c = false ∨ (Request_ContentLength c ≤ 0)%Z →
  createBindFunction Decode UUID uuid_Parse r c method t ptr w = (ptr, None, w).
Proof.
  intros Hcase. unfold createBindFunction. run.
  destruct Hcase as [(H1 & H2 & H3)|[Hbody|Hlen]].
  - by rewrite !eqb_false.
  - rewrite Hbody. by repeat case_match.
  - assert (Hz : (0 <? Request_ContentLength c)%Z = false) by lia.
    rewrite Hz, andb_false_r. by repeat case_match.
Qed.

(** X6. A request that is not a POST, PUT or PATCH, or has no body, or whose
    content length is not positive (an unknown length is -1), binds without
    error and without touching the slot or the world: the decoder is not
    run, and path parameters, query and headers are not written to the
    slot. *)
Theorem createBindFunction_without_body r c method (t : ty) (ptr : denote t)
    (w : W) :
  (method ≠ "POST" ∧ method ≠ "PUT" ∧ method ≠ "PATCH")
  ∨ Request_Body c = false ∨ (Request_ContentLength c ≤ 0)%Z →
  createBindFunction Decode UUID uuid_Parse r c method t ptr w = (ptr, None, w).
Proof. apply bind_skips_decoder. Qed.

Lemma bind_runs_decoder r c method (t : ty) (ptr ptr' : denote t)
    (derr : error) (w w' : W) :
  method = "POST" ∨ method = "PUT" ∨ method = "PATCH" →
  Request_Body c = true →
  (0 < Request_ContentLength c)%Z →
  Decode t ptr w = (ptr', derr, w') →
  createBindFunction Decode UUID uuid_Parse r c method t ptr w
  = (ptr', (λ inner, json_parse_error inner) <$> derr, w').
Proof.
  intros Hm Hbody Hlen Hdec. unfold createBindFunction. run.
  assert (Hz : (0 <? Request_ContentLength c)%Z = true) by lia.
  rewrite Hbody, Hz.
  assert (Hmethod : String.eqb method "POST" || String.eqb method "PUT"
                    || String.eqb method "PATCH" = true).
  { destruct Hm as [-> | [-> | ->]]; reflexivity. }
  rewrite Hmethod. cbn. rewrite Hdec. by destruct derr.
Qed.

(** X7. A POST, PUT or PATCH request with a body of positive length binds by
    running the decoder once: the slot and the world are the decoder's, and
    a decoder error comes back inside a [*BindError] of type
    ["json_parse"]. *)
Theorem createBindFunction_with_body r c method (t : ty) (ptr ptr' : denote t)
    (derr : error) (w w' : W) :
  method = "POST" ∨ method = "PUT" ∨ method = "PATCH" →
  Request_Body c = true →
  (0 < Request_ContentLength c)%Z →
  Decode t ptr w = (ptr', derr, w') →
  createBindFunction Decode UUID uuid_Parse r c method t ptr w
  = (ptr', (λ inner, json_parse_error inner) <$> derr, w').
Proof. apply bind_runs_decoder. Qed.

(** X8. The only error the bind function returns is the ["json_parse"]
    [*BindError] around a decoder error. *)
Theorem createBindFunction_only_error r c method (t : ty)
    (ptr ptr' : denote t) err (w w' : W) :
  createBindFunction Decode UUID uuid_Parse r c method t ptr w = (ptr', Some err, w') →
  ∃ inner : errval,
    err = json_parse_error inner
    ∧ Decode t ptr w = (ptr', Some inner, w')
    ∧ Request_Body c = true
    ∧ (0 < Request_ContentLength c)%Z.
Proof.
  unfold createBindFunction. run.
  destruct (String.eqb method "POST" || String.eqb method "PUT"
            || String.eqb method "PATCH"); [|done].
  destruct (Request_Body c); [|done].
  destruct (0 <? Request_ContentLength c)%Z eqn:Hlen; [|done]. cbn.
  destruct (Decode t ptr w) as [[p [inner|]] w1]; [|done].
  intros Heq. simplify_eq. exists inner. repeat split; lia.
Qed.

(** X9. A route registered with [xmux.Register], served by the gin adapter,
    on a request whose body the decoder rejects: the answer is status 400
    with error ["json_parse"], the world is the one the decoder left, and
    this holds for every business function, which is not run. *)
Theorem gin_rejects_undecodable_body {Params Response : ty}
    r c method options (inner : errval) (params : denote Params) (w w1 : W) :
  method = "POST" ∨ method = "PUT" ∨ method = "PATCH" →
  Request_Body c = true →
  (0 < Request_ContentLength c)%Z →
  Decode Params (zero Params) w = (params, Some inner, w1) →
  ∀ fn : Ctx → denote Params → M (denote Response * error),
    GinRouter_Register_func Decode UUID uuid_Parse r method (HandlerFunc_Handler (Register_func fn)) options c w
    = ([ Header "X-API-Version" (APIVersion (config r));
         JSON 400
           (obj_map
              (if DebugMode (config r)
               then {[ "error" := "json_parse";
                       "message" := "Failed to parse JSON body" +:+ ": "
                                    +:+ errval_Error inner;
                       "details" := "Failed to parse JSON body" +:+ ": "
                                    +:+ errval_Error inner ]}
               else {[ "error" := "json_parse";
                       "message" := "Failed to parse JSON body" ]})) ],
       w1).
Proof.
  intros Hm Hbody Hlen Hdec fn.
  pose proof (bind_runs_decoder r c method Params _ _ _ _ _
                Hm Hbody Hlen Hdec) as Hbind.
  unfold GinRouter_Register_func. run.
  cbn [Handler_Invoke HandlerFunc_Handler].
  unfold HandlerFunc_Invoke, Register_func. run.
  rewrite Hbind. cbn. f_equal.
  unfold handleError. cbn.
  by destruct (DebugMode (config r)).
Qed.

(** X10. A route registered with [xmux.Register], served by the gin adapter,
    on a request without a body to decode: the business function runs on
    the zero value of its parameter type, whatever the path parameters and
    headers of the request, and the answer is made of its result and error;
    without error it is status 200 with the result. *)
Theorem gin_serves_zero_params {Params Response : ty}
    r c method options
    (fn : Ctx → denote Params → M (denote Response * error))
    (resp : denote Response) (e : error) (w w1 : W) :
  (method ≠ "POST" ∧ method ≠ "PUT" ∧ method ≠ "PATCH")
  ∨ Request_Body c = false ∨ (Request_ContentLength c ≤ 0)%Z →
  fn (Request_Context c) (zero Params) w = (resp, e, w1) →
  GinRouter_Register_func Decode UUID uuid_Parse r method (HandlerFunc_Handler (Register_func fn)) options c w
  = (handleResponse r c (box resp) e options, w1)
  ∧ (e = None →
     GinRouter_Register_func Decode UUID uuid_Parse r method (HandlerFunc_Handler (Register_func fn)) options c w
     = ([ Header "X-API-Version" (APIVersion (config r));
          Header "Content-Type" "application/json";
          JSON 200 (obj_result (box resp)) ], w1)).
Proof.
  intros Hcase Hfn.
  pose proof (bind_skips_decoder r c method Params
                (zero Params) w Hcase) as Hbind.
  assert (Hrun : GinRouter_Register_func Decode UUID uuid_Parse r method (HandlerFunc_Handler (Register_func fn))
                   options c w
                 = (handleResponse r c (box resp) e options, w1)).
  { unfold GinRouter_Register_func. run.
    cbn [Handler_Invoke HandlerFunc_Handler].
    unfold HandlerFunc_Invoke, Register_func. run.
    rewrite Hbind. cbn. unfold enrichContext. by rewrite Hfn. }
  split; [exact Hrun|]. intros ->. rewrite Hrun. f_equal.
  cbn [handleResponse]. by repeat case_match.
Qed.

End GinProperties.

(** * The echo adapter *)

Section EchoProperties.
Import echo_adapter.
Context {env : Env} (Err_Error : Err → string).

(** X11. A route registered with [xmux.Register], served by the echo
    adapter: the business function runs on the zero value of its parameter
    type, and the answer is one [JSON] call made on the world the function
    left: status 500 with the text of the error when it failed, status 200
    with the fixed message otherwise. The result of the function is not
    sent. *)
Theorem echo_serves_zero_params {Params Response : ty}
    (fn : Ctx → denote Params → M (denote Response * error))
    (c : Context) (resp : denote Response) (e : error) (w w1 : W) :
  fn (Request_Context c) (zero Params) w = (resp, e, w1) →
  EchoRouter_Register_func Err_Error
    (HandlerFunc_Handler (Register_func fn)) c w
  = match e with
    | Some err => Context_JSON c 500 {[ "error" := Err_Error err ]} w1
    | None => Context_JSON c 200 {[ "message" := "hello" ]} w1
    end.
Proof.
  intros Hfn. unfold EchoRouter_Register_func. run.
  unfold HandlerFunc_Invoke, Register_func. run.
  rewrite Hfn. by destruct e.
Qed.

End EchoProperties.

(** * The adapters at work on the test doubles *)

Import adapter DemoGin.

Lemma normalizePath_cases_witness :
  (HasPrefix "/api/v2/users" "/api/" = true
   ∧ normalizePath DefaultRouterConfig "/api/v2/users" = "/api/v2/users")
  ∧ (HasPrefix "/users" "/" = true ∧ HasPrefix "/users" "/api/" = false
     ∧ normalizePath DefaultRouterConfig "/users" = "/api/v1/users")
  ∧ (HasPrefix "api/users" "/" = false ∧ HasPrefix "api/users" "api/" = true
     ∧ normalizePath DefaultRouterConfig "api/users" = "/api/users")
  ∧ (HasPrefix "" "/" = false ∧ HasPrefix "" "api/" = false
     ∧ normalizePath DefaultRouterConfig "" = "/api/v1/").
Proof.
  split; [|split; [|split]].
  - split; [reflexivity|].
    exact (proj1 (normalizePath_cases DefaultRouterConfig "/api/v2/users")
             eq_refl).
  - split; [reflexivity|]. split; [reflexivity|].
    exact (proj1 (proj2 (normalizePath_cases DefaultRouterConfig "/users"))
             eq_refl eq_refl).
  - split; [reflexivity|]. split; [reflexivity|].
    exact (proj1 (proj2 (proj2
             (normalizePath_cases DefaultRouterConfig "api/users")))
             eq_refl eq_refl).
  - split; [reflexivity|]. split; [reflexivity|].
    exact (proj2 (proj2 (proj2 (normalizePath_cases DefaultRouterConfig "")))
             eq_refl eq_refl).
Defined.

Lemma handleError_hides_cause_witness :
  DebugMode (config gin_router) = false
  ∧ handleError gin_router (request 0) (Some not_found) ∅
    = handleError gin_router (request 0)
        (Some (errorString "dial tcp 10.0.0.7:5432: connection refused"))
        {[ "format" := "xml" ]}.
Proof.
  split; [reflexivity|].
  apply (handleError_hides_cause (base := demo_base)); reflexivity.
Defined.

Lemma createBindFunction_without_body_witness :
  (Request_ContentLength (request (-1)) ≤ 0)%Z
  ∧ createBindFunction decode nat parse_uuid gin_router (request (-1)) "POST"
      Demo.HelloParams "" (with_body "gopher")
    = ("", None, with_body "gopher").
Proof.
  assert (Hlen : (Request_ContentLength (request (-1)) ≤ 0)%Z) by (cbn; lia).
  split; [exact Hlen|].
  apply (createBindFunction_without_body (base := demo_base)).
  right. right. exact Hlen.
Defined.

Lemma createBindFunction_with_body_witness :
  (0 < Request_ContentLength (request 6))%Z
  ∧ createBindFunction decode nat parse_uuid gin_router (request 6) "POST"
      Demo.HelloParams "" (with_body "gopher")
    = ("gopher", None, gw0).
Proof.
  assert (Hlen : (0 < Request_ContentLength (request 6))%Z) by (cbn; lia).
  split; [exact Hlen|].
  apply (createBindFunction_with_body (base := demo_base) decode nat
           parse_uuid gin_router (request 6) "POST" Demo.HelloParams
           "" "gopher" None (with_body "gopher") gw0);
    [by left|reflexivity|exact Hlen|reflexivity].
Defined.

Lemma createBindFunction_only_error_witness :
  createBindFunction decode nat parse_uuid gin_router (request 1) "PUT"
    Demo.HelloParams "" (with_body "}")
  = ("", Some parse_failure, gw0)
  ∧ ∃ inner : errval,
      parse_failure = json_parse_error inner
      ∧ Request_Body (request 1) = true.
Proof.
  split; [reflexivity|].
  destruct (createBindFunction_only_error (base := demo_base) decode nat
              parse_uuid gin_router (request 1) "PUT" Demo.HelloParams
              "" "" parse_failure (with_body "}") gw0 eq_refl)
    as (inner & Herr & _ & Hbody & _).
  exists inner. split; [exact Herr|exact Hbody].
Defined.

Lemma gin_rejects_undecodable_body_witness :
  decode Demo.HelloParams "" (with_body "}")
    = ("", Some (errorString "invalid character"), gw0)
  ∧ GinRouter_Register_func decode nat parse_uuid gin_router "POST"
      greet_handler ∅ (request 1) (with_body "}")
    = ([ Header "X-API-Version" "v1";
         JSON 400
           (obj_map {[ "error" := "json_parse";
                       "message" := "Failed to parse JSON body" ]}) ],
       gw0).
Proof.
  assert (Hlen : (0 < Request_ContentLength (request 1))%Z) by (cbn; lia).
  split; [reflexivity|].
  apply (gin_rejects_undecodable_body (base := demo_base) decode nat
           parse_uuid (Params := Demo.HelloParams)
           (Response := Demo.HelloResponse)
           gin_router (request 1) "POST" ∅
           (errorString "invalid character") "" (with_body "}") gw0);
    [by left|reflexivity|exact Hlen|reflexivity].
Defined.

Lemma gin_serves_zero_params_witness :
  greet tt "" gw0
    = ("Hello, ", None, {| body := None; mounted := []; served := 1 |})
  ∧ GinRouter_Register_func decode nat parse_uuid gin_router "GET"
      greet_handler ∅ (request 6) gw0
    = ([ Header "X-API-Version" "v1";
         Header "Content-Type" "application/json";
         JSON 200 (obj_result (box (t := Demo.HelloResponse) "Hello, ")) ],
       {| body := None; mounted := []; served := 1 |}).
Proof.
  split; [reflexivity|].
  refine (proj2 (gin_serves_zero_params (base := demo_base) decode nat
                   parse_uuid (Params := Demo.HelloParams)
                   (Response := Demo.HelloResponse)
                   gin_router (request 6) "GET" ∅ greet "Hello, " None gw0
                   {| body := None; mounted := []; served := 1 |} _ eq_refl)
            eq_refl).
  left. by repeat split.
Defined.

Lemma echo_serves_zero_params_witness :
  Demo.hello tt "" Demo.w0 = ("Hello, ", None, Demo.tick_fn Demo.w0)
  ∧ echo_adapter.EchoRouter_Register_func (env := Demo.demo_env) id
      Demo.hello_handler DemoEcho.echo_context Demo.w0
    = (None, Demo.tick_router (Demo.tick_fn Demo.w0)).
Proof.
  split; [reflexivity|].
  apply (echo_serves_zero_params (env := Demo.demo_env) id
           (Params := Demo.HelloParams) (Response := Demo.HelloResponse)
           Demo.hello DemoEcho.echo_context "Hello, " None
           Demo.w0 (Demo.tick_fn Demo.w0) eq_refl).
Defined.

(** The gin adapter mounts a route registered inside a group under the
    normalised path, and a failing business function whose error is not a
    [*BindError] is answered 500 without its text. *)
Example gin_group_route_and_internal_error :
  mounted
    (snd (Binder_Bind users_group
            (GinRouter_Router decode nat parse_uuid gin_router)
            resolve_any gw0))
  = [("GET", "/api/v1/users")]
  ∧ fst (GinRouter_Register_func decode nat parse_uuid gin_router "GET"
           missing_handler ∅ (request 0) gw0)
    = [ Header "X-API-Version" "v1";
        JSON 500
          (obj_map {[ "error" := "internal_error";
                      "message" := "Internal server error" ]}) ].
Proof. by vm_compute. Qed.

(** * More on the core: registry, decorators, merged options *)

Section CoreMore.
Context {env : Env}.

Implicit Types (g : Groups) (gs xs ys pre post : list Binder) (b : Binder).
Implicit Types (w : W) (err : error).

(** X12. Whenever [Groups.Bind] returns, the registry was free and comes
    back unchanged; if it returns no error, every group was bound, in the
    stored order; if it returns an error, that error is the one of some
    group, every group before it was bound and it is the first to fail. *)
Theorem Groups_Bind_outcome g (router_ : Router) (bind : Bind) w err g' w' :
  Groups_Bind g router_ bind w = Some (err, g', w') →
  held (mu g) = false
  ∧ g' = g
  ∧ match err with
    | None => bound_in_order router_ bind (groups g) w w'
    | Some e => ∃ pre b post w1,
        groups g = pre ++ b :: post
        ∧ bound_in_order router_ bind pre w w1
        ∧ Binder_Bind b router_ bind w1 = (Some e, w')
    end.
Proof.
  intros Hrun. destruct (held (mu g)) eqn:Hheld.
  { unfold Groups_Bind, Mutex_Lock in Hrun. by rewrite Hheld in Hrun. }
  rewrite Groups_Bind_free in Hrun by done.
  destruct (Groups_Bind_range_cases (groups g) router_ bind w)
    as (err0 & w0 & Hrange & Hcase).
  rewrite Hrange in Hrun. cbn in Hrun. by simplify_eq.
Qed.

(** X13. Two [Register] calls in a row are one [Register] call with the
    arguments joined, on a free registry and on a held one alike; and
    [Register()] with no group hands a free registry back as it is. *)
Theorem Groups_Register_compose g xs ys :
  (g1 ← Groups_Register g xs; Groups_Register g1 ys)
  = Groups_Register g (xs ++ ys)
  ∧ (held (mu g) = false → Groups_Register g [] = Some g).
Proof.
  destruct g as [[h] gs]. destruct h; cbn; [by split|].
  split; [by rewrite (assoc_L (++))|]. intros _. by rewrite app_nil_r.
Qed.


(** X15. A group whose registration function registers one route with
    [Register], bound with a resolver that succeeds: the router receives one
    [Register] call, with the method and path as written, the adapter of the
    business function taken at the resolved dependency, and the group's
    options followed by the route's; [Bind] returns no error. *)
Theorem DefineGroup_Register_route {Handler_ Params Response : ty}
    (fn : denote Handler_ → Ctx → denote Params → M (denote Response * error))
    (method path : string) (groupOptions routeOptions : list (gmap string string))
    (router_ : Router) (bind : Bind) w (dep : denote Handler_) w1 :
  bind Handler_ (zero Handler_) w = (dep, None, w1) →
  Binder_Bind
    (DefineGroup
       (λ (r : Router) (d : denote Handler_),
          Register r method path (fn d) routeOptions)
       groupOptions)
    router_ bind w
  = (None,
     snd (Router_Register router_ method path
            (HandlerFunc_Handler (Register_func (fn dep)))
            (groupOptions ++ routeOptions) w1)).
Proof.
  intros Hb.
  unfold DefineGroup, RouterGroup_Binder, RouterGroup_Bind. run.
  rewrite Hb. unfold Register. cbn. unfold optionsRouter_Register. cbn.
  by destruct (Router_Register router_ method path _ _ w1).
Qed.

End CoreMore.

Section MergeOptionsMore.
Import adapter.

Implicit Types (options pre post : list (gmap string string)).
Implicit Types (m : gmap string string) (k v : string).

Lemma mergeOptions_snoc options m :
  mergeOptions (options ++ [m]) = m ∪ mergeOptions options.
Proof.
  rewrite mergeOptions_app. f_equal.
  unfold mergeOptions. cbn [foldl]. rewrite merge_one_union.
  apply (right_id_L ∅ (∪)).
Qed.

Lemma mergeOptions_lookup_None options k :
  mergeOptions options !! k = None ↔ Forall (λ m, m !! k = None) options.
Proof.
  induction options as [|m options IH] using rev_ind.
  - split; [constructor|]. intros _. apply lookup_empty.
  - rewrite mergeOptions_snoc, lookup_union_None, Forall_app, Forall_singleton.
    rewrite IH. tauto.
Qed.

(** X16. [mergeOptions] gives a key the value of the last map that has it:
    the merged map has [v] at [k] exactly when some map of the sequence has
    [v] at [k] and no later map has [k]; a key that no map has is absent,
    so the merge of no maps is empty and values are never made up. *)
Theorem mergeOptions_last_wins options k v :
  (mergeOptions options !! k = Some v
   ↔ ∃ pre m post,
       options = pre ++ m :: post
       ∧ m !! k = Some v
       ∧ Forall (λ m', m' !! k = None) post)
  ∧ (mergeOptions options !! k = None
     ↔ Forall (λ m, m !! k = None) options).
Proof.
  split; [|apply mergeOptions_lookup_None]. split.
  - induction options as [|m options IH] using rev_ind.
    + unfold mergeOptions. cbn. by rewrite lookup_empty.
    + rewrite mergeOptions_snoc, lookup_union_Some_raw.
      intros [Hm|[Hm Hrest]].
      * exists options, m, []. by repeat split.
      * destruct (IH Hrest) as (pre & m' & post & -> & Hm' & Hpost).
        exists pre, m', (post ++ [m]). rewrite <- (assoc_L (++)).
        split; [done|]. split; [done|].
        rewrite Forall_app, Forall_singleton. by split.
  - intros (pre & m & post & -> & Hm & Hpost).
    rewrite (mergeOptions_app pre (m :: post)), lookup_union.
    replace (m :: post) with ([m] ++ post) by done.
    rewrite (mergeOptions_app [m] post), lookup_union.
    apply mergeOptions_lookup_None in Hpost. rewrite Hpost.
    replace (mergeOptions [m]) with m.
    + rewrite Hm. by destruct (mergeOptions pre !! k).
    + unfold mergeOptions. cbn [foldl]. rewrite merge_one_union.
      by rewrite (right_id_L ∅ (∪)).
Qed.

End MergeOptionsMore.

Lemma Groups_Bind_outcome_witness :
  Groups_Bind registryABC recorder resolve_user w0
    = Some (Some "no IOrder", registryABC, afterA)
  ∧ ∃ pre b post w1,
      groups registryABC = pre ++ b :: post
      ∧ bound_in_order recorder resolve_user pre w0 w1
      ∧ Binder_Bind b recorder resolve_user w1 = (Some "no IOrder", afterA).
Proof.
  split; [reflexivity|].
  exact (proj2 (proj2 (Groups_Bind_outcome (env := demo_env) registryABC
                         recorder resolve_user w0 (Some "no IOrder")
                         registryABC afterA eq_refl))).
Defined.

Lemma Groups_Register_compose_witness :
  held (mu registryAC) = false
  ∧ Groups_Register registryAC [] = Some registryAC
  ∧ (g1 ← Groups_Register registryAC [groupB]; Groups_Register g1 [groupC])
    = Groups_Register registryAC [groupB; groupC].
Proof.
  pose proof (Groups_Register_compose (env := demo_env) registryAC
                [groupB] [groupC]) as [Hjoin _].
  pose proof (Groups_Register_compose (env := demo_env) registryAC
                [] []) as [_ Hnone].
  split; [reflexivity|]. split; [exact (Hnone eq_refl)|exact Hjoin].
Defined.

Lemma DefineGroup_Register_route_witness :
  resolve_all IUser (zero IUser) w0 = (Some "UserService", None, w0)
  ∧ Binder_Bind
      (DefineGroup (env := demo_env) (Handler_ := IUser)
         (λ r d, Register (Params := HelloParams) (Response := HelloResponse)
                   r "GET" "/users" hello route_opts)
         group_opts)
      recorder resolve_all w0
    = (None,
       snd (Router_Register recorder "GET" "/users" hello_handler
              (group_opts ++ route_opts) w0)).
Proof.
  split; [reflexivity|].
  apply (DefineGroup_Register_route (env := demo_env) (Handler_ := IUser)
           (Params := HelloParams) (Response := HelloResponse)
           (λ _, hello) "GET" "/users" group_opts route_opts
           recorder resolve_all w0 (Some "UserService") w0 eq_refl).
Defined.

(** * The user repository *)

Section RepositoryProperties.
Import adapter repository.
Context {UUID : Type} `{Countable UUID} {Time : Type}.
Context {Ptr : Type} (deref : Ptr → User (UUID := UUID) (Time := Time)).

Implicit Types (r : InMemoryUserRepository (UUID := UUID) (Ptr := Ptr)).
Implicit Types (order : list (UUID * Ptr)) (user u : Ptr) (id : UUID).

Lemma locked_free {A : Type} r
    (body : InMemoryUserRepository → outcome (UUID := UUID) (Ptr := Ptr) A)
    (a : A) (m' : gmap UUID Ptr) :
  free (mu r) →
  body {| mu := {| writer := true; readers := 0 |}; users := users r |}
  = Return a {| mu := {| writer := true; readers := 0 |}; users := m' |} →
  locked r body = Return a {| mu := mu r; users := m' |}.
Proof.
  destruct r as [[wr rd] us]. intros [Hw Hr]. cbn in *. subst.
  unfold locked. cbn. by intros ->.
Qed.

Lemma rlocked_free {A : Type} r
    (body : InMemoryUserRepository → outcome (UUID := UUID) (Ptr := Ptr) A)
    (a : A) :
  writer (mu r) = false →
  (∀ m, body {| mu := m; users := users r |}
        = Return a {| mu := m; users := users r |}) →
  rlocked r body = Return a r.
Proof.
  destruct r as [[wr rd] us]. cbn. intros -> Hbody.
  unfold rlocked. cbn. by rewrite Hbody.
Qed.

Lemma Create_range_None order user :
  Create_range deref order user = None
  ↔ Forall (λ entry : UUID * Ptr,
              Username (deref entry.2) ≠ Username (deref user)
              ∧ Email (deref entry.2) ≠ Email (deref user)) order.
Proof.
  induction order as [|[id u] order IH]; cbn [Create_range].
  - split; [constructor|done].
  - rewrite Forall_cons. cbn.
    destruct (String.eqb_spec (Username (deref u)) (Username (deref user)));
      [split; [done|tauto]|].
    destruct (String.eqb_spec (Email (deref u)) (Email (deref user)));
      [split; [done|tauto]|].
    rewrite IH. tauto.
Qed.

Lemma Create_range_Some order user (e : errval) :
  Create_range deref order user = Some e → e = ErrUserAlreadyExists.
Proof.
  induction order as [|[id u] order IH]; cbn [Create_range]; [done|].
  repeat case_match; naive_solver.
Qed.

Lemma visits_elem_of order (m : gmap UUID Ptr) id u :
  visits order m → (id, u) ∈ order ↔ m !! id = Some u.
Proof.
  unfold visits. intros Hperm. rewrite Hperm. apply elem_of_map_to_list.
Qed.

(** X17. [Create] on a free repository, whatever the order in which the
    map is visited: if some stored user has the username or the email of
    the new one, it returns [ErrUserAlreadyExists] and the repository is
    unchanged; if none has, it returns no error and the user is stored
    under its id, the other entries being as before. *)
Theorem Create_checks_username_and_email r order user :
  free (mu r) →
  visits order (users r) →
  ((∃ id u, users r !! id = Some u
            ∧ (Username (deref u) = Username (deref user)
               ∨ Email (deref u) = Email (deref user))) →
   Create deref r order user = Return (Some ErrUserAlreadyExists) r)
  ∧ ((∀ id u, users r !! id = Some u →
              Username (deref u) ≠ Username (deref user)
              ∧ Email (deref u) ≠ Email (deref user)) →
     Create deref r order user
     = Return None
         {| mu := mu r; users := <[ID (deref user) := user]> (users r) |}).
Proof.
  intros Hfree Hvisits. split.
  - intros (id & u & Hu & Hsame).
    destruct (Create_range deref order user) as [e|] eqn:Hrange.
    + apply Create_range_Some in Hrange as Hrange'. subst e.
      replace r with {| mu := mu r; users := users r |} at 2 by by destruct r.
      apply locked_free; [done|]. cbn. by rewrite Hrange.
    + apply Create_range_None in Hrange. rewrite Forall_forall in Hrange.
      apply (visits_elem_of order _ id u Hvisits) in Hu.
      specialize (Hrange _ Hu). cbn in Hrange. tauto.
  - intros Hnone.
    assert (Hrange : Create_range deref order user = None).
    { apply Create_range_None, Forall_forall. intros [id u] Hin.
      apply (visits_elem_of order _ id u Hvisits) in Hin. cbn. eauto. }
    apply locked_free; [done|]. cbn. by rewrite Hrange.
Qed.

Lemma Create_Return r order user (e : option errval) r' :
  Create deref r order user = Return e r' →
  free (mu r)
  ∧ ((e = Some ErrUserAlreadyExists ∧ r' = r
      ∧ Create_range deref order user = Some ErrUserAlreadyExists)
     ∨ (e = None
        ∧ r' = {| mu := mu r;
                  users := <[ID (deref user) := user]> (users r) |}
        ∧ Create_range deref order user = None)).
Proof.
  destruct r as [[wr rd] us]. unfold Create, locked, RWMutex_Lock. cbn.
  destruct wr; [done|]. destruct rd; [|done].
  destruct (Create_range deref order user) as [e0|] eqn:Hrange; cbn;
    intros Heq; simplify_eq; (split; [done|]).
  - left. by rewrite (Create_range_Some _ _ _ Hrange).
  - by right.
Qed.

Lemma FindByID_free r id :
  writer (mu r) = false →
  FindByID r id
  = Return (match users r !! id with
            | Some user => (Some user, None)
            | None => (None, Some ErrUserNotFound)
            end) r.
Proof.
  intros Hw. unfold FindByID.
  destruct (users r !! id) as [user|] eqn:Hid;
    apply rlocked_free; try done; intros m; cbn; by rewrite Hid.
Qed.

(** X18. Round trip: once [Create] has returned no error, [FindByID] with
    the id of the new user returns the pointer that was stored and no
    error, the entries under other ids are as they were, and [Count]
    reports one entry more, or as many as before when the id was already
    in use. *)
Theorem Create_then_FindByID r order user r' :
  Create deref r order user = Return None r' →
  FindByID r' (ID (deref user)) = Return (Some user, None) r'
  ∧ (∀ id, id ≠ ID (deref user) → FindByID r' id = match FindByID r id with
                                                   | Return a _ => Return a r'
                                                   | _ => NoReturn
                                                   end)
  ∧ Count r'
    = Return (Z.of_nat (size (users r))
              + match users r !! ID (deref user) with
                | Some _ => 0
                | None => 1
                end, None)%Z r'.
Proof.
  intros Hcreate.
  destruct (Create_Return _ _ _ _ _ Hcreate)
    as [[Hw Hr] [(? & _)|(_ & -> & _)]]; [done|].
  split; [|split].
  - rewrite FindByID_free by done. cbn. by rewrite lookup_insert_eq.
  - intros id Hid. rewrite !FindByID_free by done. cbn.
    by rewrite lookup_insert_ne.
  - unfold Count. apply rlocked_free; [done|]. intros m. cbn.
    do 2 f_equal.
    destruct (users r !! ID (deref user)) as [old|] eqn:Hold.
    + rewrite <- (insert_delete_id (users r) _ _ Hold) at 2.
      rewrite <- (insert_delete_eq (users r)).
      rewrite !map_size_insert_None by apply lookup_delete_eq. lia.
    + rewrite map_size_insert_None by done. lia.
Qed.

Lemma Delete_free r id :
  free (mu r) →
  Delete r id
  = match users r !! id with
    | Some _ => Return None {| mu := mu r; users := delete id (users r) |}
    | None => Return (Some ErrUserNotFound) r
    end.
Proof.
  intros Hfree. unfold Delete. destruct (users r !! id) as [u|] eqn:Hid.
  - apply locked_free; [done|]. cbn. by rewrite Hid.
  - replace r with {| mu := mu r; users := users r |} at 2 by by destruct r.
    apply locked_free; [done|]. cbn. by rewrite Hid.
Qed.

(** X19. [Delete] on a free repository returns [ErrUserNotFound] exactly
    when the id is not stored, and then changes nothing; otherwise it
    removes that entry and no other. Either way, [FindByID] with that id
    afterwards returns [nil] and [ErrUserNotFound]; [Update] of a user
    whose id is not stored returns [ErrUserNotFound] and stores nothing. *)
Theorem Delete_then_FindByID r id user :
  free (mu r) →
  ∃ (e : option errval) r',
    Delete r id = Return e r'
    ∧ (e = Some ErrUserNotFound ↔ users r !! id = None)
    ∧ (e = None ↔ is_Some (users r !! id))
    ∧ users r' = delete id (users r)
    ∧ mu r' = mu r
    ∧ FindByID r' id = Return (None, Some ErrUserNotFound) r'
    ∧ (users r !! ID (deref user) = None →
       Update deref r user = Return (Some ErrUserNotFound) r).
Proof.
  intros Hfree. rewrite Delete_free by done.
  assert (Hupdate : users r !! ID (deref user) = None →
                    Update deref r user = Return (Some ErrUserNotFound) r).
  { intros Hid. unfold Update.
    replace r with {| mu := mu r; users := users r |} at 2 by by destruct r.
    apply locked_free; [done|]. cbn. by rewrite Hid. }
  destruct (users r !! id) as [u|] eqn:Hid.
  - eexists _, _. split; [done|]. cbn.
    split; [done|]. split; [by split; eauto|]. split; [done|].
    split; [done|]. split; [|done].
    rewrite FindByID_free by apply Hfree. cbn. by rewrite lookup_delete_eq.
  - exists (Some ErrUserNotFound), r. split; [done|].
    split; [done|]. split; [by split; [|intros []]|].
    split; [by rewrite delete_id|]. split; [done|]. split; [|done].
    rewrite FindByID_free by apply Hfree. by rewrite Hid.
Qed.

Lemma Update_Return r user (e : option errval) r' :
  Update deref r user = Return e r' →
  free (mu r)
  ∧ ((e = Some ErrUserNotFound ∧ r' = r
      ∧ users r !! ID (deref user) = None)
     ∨ (e = None
        ∧ r' = {| mu := mu r;
                  users := <[ID (deref user) := user]> (users r) |}
        ∧ is_Some (users r !! ID (deref user)))).
Proof.
  destruct r as [[wr rd] us]. unfold Update, locked, RWMutex_Lock. cbn.
  destruct wr; [done|]. destruct rd; [|done].
  destruct (us !! ID (deref user)) as [old|] eqn:Hold; cbn;
    intros Heq; simplify_eq; (split; [done|]); [right|left]; eauto.
Qed.

Lemma Delete_Return r id (e : option errval) r' :
  Delete r id = Return e r' →
  free (mu r) ∧ mu r' = mu r ∧ users r' = delete id (users r).
Proof.
  destruct r as [[wr rd] us]. unfold Delete, locked, RWMutex_Lock. cbn.
  destruct wr; [done|]. destruct rd; [|done].
  destruct (us !! id) as [old|] eqn:Hold; cbn;
    intros Heq; simplify_eq; (split; [done|]); cbn; [done|].
  by rewrite delete_id.
Qed.

(** X20. [Create] keeps usernames and emails distinct, whatever the order
    in which the map is visited: if no two stored users share a username or
    an email and [Create] returns no error, the same holds afterwards,
    whether the new user took a fresh id or replaced the entry of its
    id. *)
Theorem Create_keeps_users_distinct r order user r' :
  visits order (users r) →
  Create deref r order user = Return None r' →
  distinct_users deref (users r) →
  distinct_users deref (users r').
Proof.
  intros Hvisits Hcreate.
  destruct (Create_Return _ _ _ _ _ Hcreate)
    as [Hfree [(? & _)|(_ & -> & Hrange)]]; [done|].
  apply Create_range_None in Hrange. rewrite Forall_forall in Hrange.
  assert (Hfresh : ∀ id u, users r !! id = Some u →
            Username (deref u) ≠ Username (deref user)
            ∧ Email (deref u) ≠ Email (deref user)).
  { intros id u Hu. apply (visits_elem_of order _ id u Hvisits) in Hu.
    apply (Hrange _ Hu). }
  intros Hdistinct id1 id2 u1 u2. cbn.
  rewrite !lookup_insert. repeat case_decide; intros Hu1 Hu2 Hsame;
    simplify_eq; try done.
  - destruct (Hfresh _ _ Hu2). destruct Hsame; congruence.
  - destruct (Hfresh _ _ Hu1). destruct Hsame; congruence.
  - by apply (Hdistinct id1 id2 u1 u2).
Qed.

(** X21. Entries stay filed under the id of their user: if every entry of
    the map is stored under the [ID] of the user it points to, this still
    holds after a [Create], an [Update] or a [Delete] that returns,
    whatever it returns. *)
Theorem repository_stays_filed_by_id r order user id
    (e : option errval) r' :
  filed_by_id deref (users r) →
  Create deref r order user = Return e r'
  ∨ Update deref r user = Return e r'
  ∨ Delete r id = Return e r' →
  filed_by_id deref (users r').
Proof.
  intros Hfiled [Hrun|[Hrun|Hrun]].
  - destruct (Create_Return _ _ _ _ _ Hrun)
      as [_ [(_ & -> & _)|(_ & -> & _)]]; [done|].
    intros id' u. cbn. rewrite lookup_insert. case_decide; [|by eauto].
    intros Heq. by simplify_eq.
  - destruct (Update_Return _ _ _ _ Hrun)
      as [_ [(_ & -> & _)|(_ & -> & _)]]; [done|].
    intros id' u. cbn. rewrite lookup_insert. case_decide; [|by eauto].
    intros Heq. by simplify_eq.
  - destruct (Delete_Return _ _ _ _ Hrun) as (_ & _ & Hus).
    intros id' u. rewrite Hus, lookup_delete.
    case_decide; [done|by eauto].
Qed.

Lemma FindByUsername_range_Some order (username : string) u :
  FindByUsername_range deref order username = Some u →
  (∃ id, (id, u) ∈ order) ∧ Username (deref u) = username.
Proof.
  induction order as [|[id u'] order IH]; cbn [FindByUsername_range];
    [done|].
  destruct (String.eqb_spec (Username (deref u')) username) as [Heq|Hne].
  - intros [= ->]. split; [|done]. exists id. by left.
  - intros Hrest. destruct (IH Hrest) as [[id' Hin] Hname].
    split; [|done]. exists id'. by right.
Qed.

Lemma FindByUsername_range_None order (username : string) :
  FindByUsername_range deref order username = None
  ↔ Forall (λ entry : UUID * Ptr, Username (deref entry.2) ≠ username) order.
Proof.
  induction order as [|[id u] order IH]; cbn [FindByUsername_range].
  - split; [constructor|done].
  - rewrite Forall_cons. cbn.
    destruct (String.eqb_spec (Username (deref u)) username);
      [split; [done|tauto]|].
    rewrite IH. tauto.
Qed.

(** X22. [FindByUsername] on a repository no writer holds, whatever the
    order in which the map is visited: it returns a stored user with that
    username when there is one, and [nil] with [ErrUserNotFound] exactly
    when there is none; the repository is unchanged. When no two stored
    users share a username or an email, the user it returns does not depend
    on the order. *)
Theorem FindByUsername_finds_stored r order (username : string) :
  writer (mu r) = false →
  visits order (users r) →
  ∃ (found : option Ptr) (e : option errval),
    FindByUsername deref r order username = Return (found, e) r
    ∧ match found with
      | Some u =>
          e = None
          ∧ (∃ id, users r !! id = Some u)
          ∧ Username (deref u) = username
      | None =>
          e = Some ErrUserNotFound
          ∧ ∀ id u, users r !! id = Some u → Username (deref u) ≠ username
      end
    ∧ (distinct_users deref (users r) →
       ∀ order', visits order' (users r) →
         FindByUsername deref r order' username
         = FindByUsername deref r order username).
Proof.
  intros Hw Hvisits.
  assert (Hrun : ∀ o, FindByUsername deref r o username
            = Return (match FindByUsername_range deref o username with
                      | Some u => (Some u, None)
                      | None => (None, Some ErrUserNotFound)
                      end) r).
  { intros o. unfold FindByUsername.
    destruct (FindByUsername_range deref o username);
      by apply rlocked_free. }
  destruct (FindByUsername_range deref order username) as [u|] eqn:Hfind.
  - destruct (FindByUsername_range_Some _ _ _ Hfind) as [[id Hin] Hname].
    apply (visits_elem_of order _ id u Hvisits) in Hin.
    exists (Some u), None. rewrite Hrun, Hfind.
    split; [done|]. split; [by eauto|].
    intros Hdistinct order' Hvisits'. rewrite !Hrun, ?Hfind.
    destruct (FindByUsername_range deref order' username) as [u'|] eqn:Hfind'.
    + destruct (FindByUsername_range_Some _ _ _ Hfind') as [[id' Hin'] Hname'].
      apply (visits_elem_of order' _ id' u' Hvisits') in Hin'.
      assert (id' = id) as ->.
      { apply (Hdistinct id' id u' u); [done..|]. left. congruence. }
      congruence.
    + apply FindByUsername_range_None in Hfind'.
      rewrite Forall_forall in Hfind'.
      apply (visits_elem_of order' _ id u Hvisits') in Hin.
      by destruct (Hfind' _ Hin).
  - exists None, (Some ErrUserNotFound). rewrite Hrun, Hfind.
    apply FindByUsername_range_None in Hfind as Hnone.
    rewrite Forall_forall in Hnone.
    split; [done|]. split.
    + split; [done|]. intros id u Hu.
      apply (visits_elem_of order _ id u Hvisits) in Hu.
      apply (Hnone _ Hu).
    + intros _ order' Hvisits'. rewrite !Hrun, ?Hfind.
      destruct (FindByUsername_range deref order' username) as [u'|] eqn:Hfind';
        [|done].
      destruct (FindByUsername_range_Some _ _ _ Hfind') as [[id' Hin'] Hname'].
      apply (visits_elem_of order' _ id' u' Hvisits') in Hin'.
      apply (visits_elem_of order _ id' u' Hvisits) in Hin'.
      by destruct (Hnone _ Hin').
Qed.

Lemma List_users order (acc : list Ptr) :
  foldl (λ (users_ : list Ptr) (entry : UUID * Ptr), users_ ++ [entry.2])
        acc order
  = acc ++ order.*2.
Proof.
  revert acc. induction order as [|entry order IH]; intros acc; cbn.
  - by rewrite app_nil_r.
  - by rewrite IH, <- (assoc_L (++)).
Qed.

Lemma int_add_exact (a b : Z) :
  (- 2 ^ 63 ≤ a + b < 2 ^ 63)%Z → int_add a b = (a + b)%Z.
Proof. intros Hrange. unfold int_add. rewrite Z.mod_small; lia. Qed.

(** X23. [List] with a non-negative offset and limit (their sum within
    [int]) returns, for the order in which the map was visited, the users
    from position [offset] on, at most [limit] of them, or at most 10 when
    the limit is 0; an offset past the end gives the empty page. The page
    holds stored users only and the repository is unchanged. *)
Theorem List_page r order (limit offset : Z) :
  writer (mu r) = false →
  visits order (users r) →
  (0 ≤ offset)%Z → (0 ≤ limit)%Z →
  (offset + (if (limit =? 0)%Z then 10 else limit) < 2 ^ 63)%Z →
  ∃ page : list Ptr,
    List r order limit offset = Return (page, None) r
    ∧ page = take (Z.to_nat (if (limit =? 0)%Z then 10 else limit))
               (drop (Z.to_nat offset) order.*2)
    ∧ length page
      = Z.to_nat (Z.min (if (limit =? 0)%Z then 10 else limit)
                    (Z.max 0 (Z.of_nat (size (users r)) - offset)))
    ∧ ∀ u, u ∈ page → ∃ id, users r !! id = Some u.
Proof.
  intros Hw Hvisits Hoffset Hlimit Hsum.
  set (l := if (limit =? 0)%Z then 10%Z else limit) in *.
  assert (Hl : (0 < l)%Z) by (subst l; destruct (Z.eqb_spec limit 0); lia).
  assert (Hlen : length order.*2 = size (users r)).
  { rewrite length_fmap. unfold visits in Hvisits. rewrite Hvisits.
    apply length_map_to_list. }
  eexists. split; [|split; [reflexivity|split]].
  - unfold List. apply rlocked_free; [done|]. intros m. cbn zeta.
    fold l. rewrite List_users, app_nil_l, int_add_exact by lia.
    set (len := Z.of_nat (length order.*2)).
    destruct (Z.ltb_spec len offset) as [Hpast|Hin].
    + assert (Hend : (len <? offset + l)%Z = true) by lia.
      rewrite Hend.
      replace ((0 <=? len)%Z && (len <=? len)%Z && (len <=? len)%Z)
        with true by (symmetry; rewrite !andb_true_iff; lia).
      rewrite (drop_ge _ (Z.to_nat offset)) by lia.
      rewrite (drop_ge _ (Z.to_nat len)) by lia.
      by rewrite !take_nil.
    + destruct (Z.ltb_spec len (offset + l)) as [Hshort|Hfull].
      * replace ((0 <=? offset)%Z && (offset <=? len)%Z && (len <=? len)%Z)
          with true by (symmetry; rewrite !andb_true_iff; lia).
        rewrite !take_ge; [done|rewrite length_drop; lia..].
      * replace ((0 <=? offset)%Z && (offset <=? offset + l)%Z
                 && (offset + l <=? len)%Z)
          with true by (symmetry; rewrite !andb_true_iff; lia).
        do 3 f_equal. lia.
  - rewrite length_take, length_drop, Hlen. lia.
  - intros u Hu. apply elem_of_take in Hu as (i & Hu & _).
    rewrite lookup_drop in Hu.
    assert (Hin' : u ∈ order.*2) by (apply list_elem_of_lookup; eauto).
    apply list_elem_of_fmap in Hin' as ([id u'] & -> & Hin).
    exists id. by apply (visits_elem_of order _ id u' Hvisits).
Qed.

(** X24. When [List] panics: with the sum of offset and limit within
    [int], the slice expression panics exactly when the offset is negative,
    or the limit is negative and offset plus limit is less than the number
    of users. The deferred unlock leaves the repository as it was. *)
Theorem List_panics r order (limit offset : Z) :
  writer (mu r) = false →
  (- 2 ^ 63 ≤ offset + (if (limit =? 0)%Z then 10 else limit) < 2 ^ 63)%Z →
  (List r order limit offset = Panic r
   ↔ (offset < 0)%Z
     ∨ ((limit < 0)%Z ∧ (offset + limit < Z.of_nat (length order))%Z))
  ∧ (List r order limit offset ≠ Panic r →
     ∃ page, List r order limit offset = Return (page, None) r).
Proof.
  intros Hw Hsum.
  set (l := if (limit =? 0)%Z then 10%Z else limit) in *.
  assert (Hl : (l < 0 ↔ limit < 0)%Z ∧ (limit < 0 → l = limit)%Z)
    by (subst l; destruct (Z.eqb_spec limit 0); lia).
  destruct r as [[wr rd] us]. cbn in Hw. subst wr.
  unfold List, rlocked, RWMutex_RLock, RWMutex_RUnlock. cbn.
  fold l. rewrite List_users, app_nil_l, int_add_exact by lia.
  rewrite length_fmap.
  set (len := Z.of_nat (length order)).
  set (start := if (len <? offset)%Z then len else offset).
  set (end_ := if (len <? offset + l)%Z then len else (offset + l)%Z).
  assert (Hstart : start = Z.min offset len)
    by (subst start; destruct (Z.ltb_spec len offset); lia).
  assert (Hend : end_ = Z.min (offset + l) len)
    by (subst end_; destruct (Z.ltb_spec len (offset + l)); lia).
  destruct ((0 <=? start)%Z && (start <=? end_)%Z && (end_ <=? len)%Z)
    eqn:Hok.
  - rewrite !andb_true_iff in Hok. split.
    + split; [done|]. lia.
    + intros _. by eexists.
  - rewrite !andb_false_iff in Hok. split.
    + split; [|done]. intros _. lia.
    + by intros [].
Qed.

(** X25. [GetUser] on a repository no writer holds: for a stored id it
    returns the response built from the stored user and no error; for an id
    that is not stored it returns [nil] and an error that wraps
    [ErrUserNotFound] under the text ["failed to find user: user not
    found"]. No [*BindError] is on the chain of that error, so the gin
    adapter answers it, outside debug mode, with status 500 and
    ["internal_error"]. *)
Theorem GetUser_not_found_is_internal_error {base : Base}
    (gin : GinRouter) (c : Context) (options : gmap string string) r id :
  writer (mu r) = false →
  (∀ u, users r !! id = Some u →
        GetUser deref r id = Return (FromUser deref (Some u), None) r)
  ∧ (users r !! id = None →
     ∃ e : errval,
       GetUser deref r id = Return (None, Some e) r
       ∧ errval_Error e = "failed to find user: user not found"
       ∧ errval_Unwrap e = Some ErrUserNotFound
       ∧ errors_As e = None
       ∧ (DebugMode (config gin) = false →
          handleError gin c (Some e) options
          = [ Header "X-API-Version" (APIVersion (config gin));
              JSON 500
                (obj_map {[ "error" := "internal_error";
                            "message" := "Internal server error" ]}) ])).
Proof.
  intros Hw. split.
  - intros u Hu. unfold GetUser. rewrite FindByID_free by done.
    by rewrite Hu.
  - intros Hid. eexists. unfold GetUser. rewrite FindByID_free by done.
    rewrite Hid. split; [reflexivity|]. split; [reflexivity|].
    split; [reflexivity|]. split; [reflexivity|].
    intros Hdebug. unfold handleError. cbn. by rewrite Hdebug.
Qed.

End RepositoryProperties.

(** * The repository at work on the test doubles *)

Import repository DemoRepo.

Lemma only_alice_lookup (id u : nat) :
  users only_alice !! id = Some u → id = 1 ∧ u = 1.
Proof.
  unfold only_alice. cbn [users]. intros Hu.
  by apply lookup_singleton_Some in Hu as [<- <-].
Qed.

Lemma Create_checks_username_and_email_witness :
  (free (mu only_alice)
   ∧ visits (map_to_list (users only_alice)) (users only_alice)
   ∧ users only_alice !! 1 = Some 1
   ∧ Username (heap 1) = Username (heap 3)
   ∧ Create heap only_alice (map_to_list (users only_alice)) 3
     = Return (Some ErrUserAlreadyExists) only_alice)
  ∧ Create heap only_alice (map_to_list (users only_alice)) 2
    = Return None alice_and_bob.
Proof.
  assert (Hfree : free (mu only_alice)) by (by split).
  assert (Hvisits : visits (map_to_list (users only_alice))
                      (users only_alice)) by (unfold visits; reflexivity).
  destruct (Create_checks_username_and_email heap only_alice _ 3
              Hfree Hvisits) as [Htaken _].
  destruct (Create_checks_username_and_email heap only_alice _ 2
              Hfree Hvisits) as [_ Hfresh].
  split.
  - split; [exact Hfree|]. split; [exact Hvisits|].
    split; [reflexivity|]. split; [reflexivity|].
    apply Htaken. exists 1, 1. split; [reflexivity|]. by left.
  - rewrite Hfresh; [reflexivity|].
    intros id u Hu. apply only_alice_lookup in Hu as [-> ->].
    by split.
Defined.

Lemma Create_then_FindByID_witness :
  Create heap only_alice (map_to_list (users only_alice)) 2
    = Return None alice_and_bob
  ∧ FindByID alice_and_bob (ID (heap 2)) = Return (Some 2, None) alice_and_bob.
Proof.
  assert (Hcreate : Create heap only_alice (map_to_list (users only_alice)) 2
                    = Return None alice_and_bob) by reflexivity.
  split; [exact Hcreate|].
  exact (proj1 (Create_then_FindByID heap only_alice _ 2 alice_and_bob
                  Hcreate)).
Defined.

Lemma Delete_then_FindByID_witness :
  free (mu alice_and_bob)
  ∧ ∃ (e : option errval) r',
      Delete alice_and_bob 2 = Return e r'
      ∧ users r' = delete 2 (users alice_and_bob)
      ∧ FindByID r' 2 = Return (None, Some ErrUserNotFound) r'.
Proof.
  assert (Hfree : free (mu alice_and_bob)) by (by split).
  split; [exact Hfree|].
  destruct (Delete_then_FindByID heap alice_and_bob 2 3 Hfree)
    as (e & r' & Hrun & _ & _ & Hus & _ & Hfind & _).
  exists e, r'. split; [exact Hrun|]. split; [exact Hus|exact Hfind].
Defined.

Lemma only_alice_distinct : distinct_users heap (users only_alice).
Proof.
  intros id1 id2 u1 u2 Hu1 Hu2 _.
  apply only_alice_lookup in Hu1 as [-> ->].
  by apply only_alice_lookup in Hu2 as [-> ->].
Qed.

Lemma only_alice_filed : filed_by_id heap (users only_alice).
Proof.
  intros id u Hu. by apply only_alice_lookup in Hu as [-> ->].
Qed.

Lemma Create_keeps_users_distinct_witness :
  visits (map_to_list (users only_alice)) (users only_alice)
  ∧ Create heap only_alice (map_to_list (users only_alice)) 2
    = Return None alice_and_bob
  ∧ distinct_users heap (users only_alice)
  ∧ distinct_users heap (users alice_and_bob).
Proof.
  assert (Hvisits : visits (map_to_list (users only_alice))
                      (users only_alice)) by (unfold visits; reflexivity).
  assert (Hcreate : Create heap only_alice (map_to_list (users only_alice)) 2
                    = Return None alice_and_bob) by reflexivity.
  split; [exact Hvisits|]. split; [exact Hcreate|].
  split; [exact only_alice_distinct|].
  exact (Create_keeps_users_distinct heap only_alice _ 2 alice_and_bob
           Hvisits Hcreate only_alice_distinct).
Defined.

Lemma repository_stays_filed_by_id_witness :
  filed_by_id heap (users only_alice)
  ∧ Create heap only_alice (map_to_list (users only_alice)) 2
    = Return None alice_and_bob
  ∧ filed_by_id heap (users alice_and_bob).
Proof.
  assert (Hcreate : Create heap only_alice (map_to_list (users only_alice)) 2
                    = Return None alice_and_bob) by reflexivity.
  split; [exact only_alice_filed|]. split; [exact Hcreate|].
  exact (repository_stays_filed_by_id heap only_alice _ 2 1 None
           alice_and_bob only_alice_filed (or_introl Hcreate)).
Defined.

Lemma FindByUsername_finds_stored_witness :
  writer (mu alice_and_bob) = false
  ∧ visits (map_to_list (users alice_and_bob)) (users alice_and_bob)
  ∧ ∃ (found : option nat) (e : option errval),
      FindByUsername heap alice_and_bob
        (map_to_list (users alice_and_bob)) "bob"
      = Return (found, e) alice_and_bob.
Proof.
  assert (Hvisits : visits (map_to_list (users alice_and_bob))
                      (users alice_and_bob)) by (unfold visits; reflexivity).
  split; [reflexivity|]. split; [exact Hvisits|].
  destruct (FindByUsername_finds_stored heap alice_and_bob _ "bob"
              eq_refl Hvisits) as (found & e & Hrun & _).
  exists found, e. exact Hrun.
Defined.

Lemma List_page_witness :
  writer (mu alice_and_bob) = false
  ∧ visits (map_to_list (users alice_and_bob)) (users alice_and_bob)
  ∧ ∃ page : list nat,
      List alice_and_bob (map_to_list (users alice_and_bob)) 0 1
      = Return (page, None) alice_and_bob
      ∧ length page = 1.
Proof.
  assert (Hvisits : visits (map_to_list (users alice_and_bob))
                      (users alice_and_bob)) by (unfold visits; reflexivity).
  split; [reflexivity|]. split; [exact Hvisits|].
  destruct (List_page alice_and_bob _ 0 1 eq_refl Hvisits)
    as (page & Hrun & _ & Hlen & _); [lia| lia| cbn; lia|].
  exists page. split; [exact Hrun|]. rewrite Hlen. reflexivity.
Defined.

Lemma List_panics_witness :
  writer (mu alice_and_bob) = false
  ∧ List alice_and_bob (map_to_list (users alice_and_bob)) (-1) 1
    = Panic alice_and_bob
  ∧ List alice_and_bob (map_to_list (users alice_and_bob)) 5 (-1)
    = Panic alice_and_bob.
Proof.
  split; [reflexivity|].
  assert (Hlen : length (map_to_list (users alice_and_bob)) = 2)
    by reflexivity.
  split.
  - apply (proj1 (List_panics alice_and_bob _ (-1) 1 eq_refl
                    ltac:(cbn; lia))).
    right. rewrite Hlen. lia.
  - apply (proj1 (List_panics alice_and_bob _ 5 (-1) eq_refl
                    ltac:(cbn; lia))).
    left. lia.
Defined.

Lemma GetUser_not_found_is_internal_error_witness :
  writer (mu only_alice) = false
  ∧ users only_alice !! 7 = None
  ∧ ∃ e : errval,
      GetUser heap only_alice 7 = Return (None, Some e) only_alice
      ∧ handleError gin_router (request 0) (Some e) ∅
        = [ Header "X-API-Version" "v1";
            JSON 500
              (obj_map {[ "error" := "internal_error";
                          "message" := "Internal server error" ]}) ].
Proof.
  split; [reflexivity|]. split; [reflexivity|].
  destruct (GetUser_not_found_is_internal_error heap (base := demo_base)
              gin_router (request 0) ∅ only_alice 7 eq_refl)
    as [_ Hmissing].
  destruct (Hmissing eq_refl) as (e & Hrun & _ & _ & _ & Hanswer).
  exists e. split; [exact Hrun|]. exact (Hanswer eq_refl).
Defined.
